(** * Monomial orderings of PolynomialOrdering (main.py)

    A shallow embedding of the comparators [compare_by_lex],
    [compare_by_glex], [compare_by_grevlex] and of the rank-placement
    functions [determine_by_lex], [determine_by_glex],
    [determine_by_grevlex], followed by the properties of the
    specification that concern them.

    Python integers are unbounded, so exponents and comparison results
    are in [Z]; counters and loop indices are in [nat].  A Python call
    that raises [IndexError] is modelled by [None]. *)

From Stdlib Require Import ZArith Lia.
From stdpp Require Import base option list.

(** ** The fragment of Python the program uses *)

Module Py.

(** [xs[k]] for an integer [k]: a negative [k] counts from the end, and
    an index outside [-len(xs) .. len(xs)-1] raises. *)
Definition index {A} (xs : list A) (k : Z) : option A :=
  let n := Z.of_nat (length xs) in
  if (k <? 0)%Z
  then (if (k + n <? 0)%Z then None else xs !! Z.to_nat (k + n))
  else xs !! Z.to_nat k.

(** [xs[i] = v] for a natural [i]: raises when [i] is out of range. *)
Definition store {A} (xs : list A) (i : nat) (v : A) : option (list A) :=
  if (i <? length xs)%nat then Some (<[i := v]> xs) else None.

(** [sum(xs)]: the accumulator starts at 0 and runs left to right. *)
Definition sum (xs : list Z) : Z := foldl Z.add 0%Z xs.

(** [range(n)] *)
Definition range (n : nat) : list nat := seq 0 n.

(** [for i in idx: body], threading the variables the body assigns;
    an exception in the body leaves the loop. *)
Fixpoint for_in {I S} (idx : list I) (body : I → S → option S) (s : S)
  : option S :=
  match idx with
  | [] => Some s
  | i :: rest => s' ← body i s; for_in rest body s'
  end.

End Py.

(** ** Comparators *)

(** [compare_by_lex]: the loop [for i in range(len(P))] reads [P[i]], so
    it visits the entries of [P] from the first to the last. *)
Fixpoint compare_by_lex (M1 M2 P : list Z) : option Z :=
  match P with
  | [] => Some 0%Z
  | p :: P' =>
      a ← Py.index M1 p;
      b ← Py.index M2 p;
      if (a <? b)%Z then Some (-1)%Z
      else if (a >? b)%Z then Some 1%Z
      else compare_by_lex M1 M2 P'
  end.

Definition compare_by_glex (M1 M2 P : list Z) : option Z :=
  let deg1 := Py.sum M1 in
  let deg2 := Py.sum M2 in
  if (deg1 <? deg2)%Z then Some (-1)%Z
  else if (deg1 >? deg2)%Z then Some 1%Z
  else compare_by_lex M1 M2 P.

(** The tie-break loop of [compare_by_grevlex],
    [for i in range(len(P)-1, -1, -1)], given the entries of [P] it
    still has to visit, in the order it visits them. *)
Fixpoint grevlex_loop (M1 M2 Prev : list Z) : option Z :=
  match Prev with
  | [] => Some 0%Z
  | p :: rest =>
      a ← Py.index M1 p;
      b ← Py.index M2 p;
      if (a >? b)%Z then Some (-1)%Z
      else if (a <? b)%Z then Some 1%Z
      else grevlex_loop M1 M2 rest
  end.

Definition compare_by_grevlex (M1 M2 P : list Z) : option Z :=
  let deg1 := Py.sum M1 in
  let deg2 := Py.sum M2 in
  if (deg1 <? deg2)%Z then Some (-1)%Z
  else if (deg1 >? deg2)%Z then Some 1%Z
  else grevlex_loop M1 M2 (rev P).

(** ** Rank placement *)

(** A slot of the output is [None] until a term is stored in it. *)
Abbreviation slots := (list (option (list Z))).

(** The three [determine_by_*] functions have the same body up to the
    comparator they call; the body is given once, over [compare]
    (the comparator already applied to [Procedure]). *)
Section RankPlacement.

Variable compare : list Z → list Z → option Z.
Variable Terms : list (list Z).

(** [if compare(Terms[i], Terms[j]) < 0: Count[i] += 1] *)
Definition count_step (i j : nat) (Count : list nat) : option (list nat) :=
  Ti ← Terms !! i;
  Tj ← Terms !! j;
  c ← compare Ti Tj;
  if (c <? 0)%Z
  then ci ← Count !! i; Py.store Count i (S ci)
  else Some Count.

(** [Count[i] = 0], then the loop over [j]. *)
Definition count_row (n i : nat) (Count : list nat) : option (list nat) :=
  Count0 ← Py.store Count i 0;
  Py.for_in (Py.range n) (count_step i) Count0.

(** [TermsOut[Count[i]] = Terms[i]] *)
Definition place (Count : list nat) (i : nat) (TermsOut : slots)
  : option slots :=
  Ti ← Terms !! i;
  ci ← Count !! i;
  Py.store TermsOut ci (Some Ti).

(** The first loop nest: the counting array it leaves. *)
Definition populate : option (list nat) :=
  let n := length Terms in
  let Count := replicate n 0 in
  Py.for_in (Py.range n) (count_row n) Count.

Definition determine : option slots :=
  let n := length Terms in
  let TermsOut : slots := replicate n None in
  Count ← populate;
  Py.for_in (Py.range n) (place Count) TermsOut.

End RankPlacement.

Definition determine_by_lex (Terms : list (list Z)) (Procedure : list Z)
  : option slots :=
  determine (λ M1 M2, compare_by_lex M1 M2 Procedure) Terms.

Definition determine_by_glex (Terms : list (list Z)) (Procedure : list Z)
  : option slots :=
  determine (λ M1 M2, compare_by_glex M1 M2 Procedure) Terms.

Definition determine_by_grevlex (Terms : list (list Z)) (Procedure : list Z)
  : option slots :=
  determine (λ M1 M2, compare_by_grevlex M1 M2 Procedure) Terms.

(** ** Well-formed inputs *)

(** [p] is an index [M[p]] can be read at. *)
Definition in_range (M : list Z) (p : Z) : Prop :=
  (- Z.of_nat (length M) ≤ p < Z.of_nat (length M))%Z.

(** Every entry of [P] is an index of [M]: what remains of "P is a
    permutation of the index range of M" once only reads matter. *)
Definition indices_ok (P M : list Z) : Prop := Forall (in_range M) P.

(** The program's first test (exercise 2.2.3.b). *)
Definition Terms_223b : list (list Z) :=
  [[2; 8; 0]; [5; 1; 4]; [1; 1; 3]; [1; 4; 0]]%Z.

Definition Procedure_223b : list Z := [2; 1; 0]%Z.

(** What the ranking needs of a comparator [compare] (already applied to
    a precedence list) on the vectors [ok] accepts: it returns, its
    result is one of -1, 0, 1, swapping the arguments negates it, and
    "less" is transitive. *)
Record three_way (ok : list Z → Prop) (compare : list Z → list Z → option Z)
  : Prop := {
  tw_total : ∀ a b, ok a → ok b → is_Some (compare a b);
  tw_sign : ∀ a b c, compare a b = Some c → (c = -1 ∨ c = 0 ∨ c = 1)%Z;
  tw_flip : ∀ a b, compare b a = Z.opp <$> compare a b;
  tw_trans : ∀ a b c,
    compare a b = Some (-1)%Z → compare b c = Some (-1)%Z →
    compare a c = Some (-1)%Z
}.

(** The test of the counting loop: [compare(t, u) < 0]. *)
Definition is_less (compare : list Z → list Z → option Z) (t u : list Z)
  : bool :=
  match compare t u with Some c => (c <? 0)%Z | None => false end.

Fixpoint count_if {A} (f : A → bool) (l : list A) : nat :=
  match l with
  | [] => 0
  | x :: l' => (if f x then 1 else 0) + count_if f l'
  end.

(** The position [determine] computes for [t]: the number of terms [u]
    of the collection with [compare(t, u) < 0], that is, of terms
    strictly greater than [t]. *)
Definition rank (compare : list Z → list Z → option Z)
  (Terms : list (list Z)) (t : list Z) : nat :=
  count_if (is_less compare t) Terms.

(** The count the specification describes: the number of terms strictly
    less than [t]. *)
Definition rank_below (compare : list Z → list Z → option Z)
  (Terms : list (list Z)) (t : list Z) : nat :=
  count_if (λ u, is_less compare u t) Terms.

(** The terms of a collection are pairwise distinct under [compare]: no
    two terms at different positions compare as equal. *)
Definition pairwise_distinct (compare : list Z → list Z → option Z)
  (Terms : list (list Z)) : Prop :=
  ∀ i j a b, i ≠ j → Terms !! i = Some a → Terms !! j = Some b →
             compare a b ≠ Some 0%Z.

(** The three orders, to speak of "each comparator" and "each
    [determine_by_*]" at once. *)
Inductive ordering := Lex | Glex | Grevlex.

Definition compare_by (o : ordering) : list Z → list Z → list Z → option Z :=
  match o with
  | Lex => compare_by_lex
  | Glex => compare_by_glex
  | Grevlex => compare_by_grevlex
  end.

Definition determine_by (o : ordering)
  : list (list Z) → list Z → option slots :=
  match o with
  | Lex => determine_by_lex
  | Glex => determine_by_glex
  | Grevlex => determine_by_grevlex
  end.

(** A collection every vector of which can be read at every entry of
    [P]. *)
Definition well_formed (Terms : list (list Z)) (P : list Z) : Prop :=
  Forall (indices_ok P) Terms.

(** [a] is found in the output at an earlier position than [b]. *)
Definition appears_before (out : slots) (a b : list Z) : Prop :=
  ∃ i j, i < j ∧ out !! i = Some (Some a) ∧ out !! j = Some (Some b).

(** * Properties *)

(** ** Python reads *)

Lemma index_in_range {A} (xs : list A) (k : Z) :
  (- Z.of_nat (length xs) ≤ k < Z.of_nat (length xs))%Z ↔ is_Some (Py.index xs k).
Proof.
  unfold Py.index. split.
  - intros Hk. destruct (Z.ltb_spec k 0).
    + destruct (Z.ltb_spec (k + Z.of_nat (length xs)) 0); [lia|].
      apply lookup_lt_is_Some. lia.
    + apply lookup_lt_is_Some. lia.
  - destruct (Z.ltb_spec k 0).
    + destruct (Z.ltb_spec (k + Z.of_nat (length xs)) 0).
      * intros [? ?]; discriminate.
      * intros H1%lookup_lt_is_Some. lia.
    + intros H1%lookup_lt_is_Some. lia.
Qed.

Lemma sum_from (xs : list Z) (a : Z) : foldl Z.add a xs = (a + Py.sum xs)%Z.
Proof.
  unfold Py.sum. revert a. induction xs as [|x xs IH]; intros a; simpl.
  - lia.
  - rewrite (IH (a + x)%Z), (IH (0 + x)%Z). lia.
Qed.

Lemma sum_cons (x : Z) (xs : list Z) : Py.sum (x :: xs) = (x + Py.sum xs)%Z.
Proof. unfold Py.sum at 1. simpl. apply sum_from. Qed.

(** ** The comparators as three-way comparisons *)

Ltac by_cases :=
  repeat match goal with
    | H : context [(?a >? ?b)%Z] |- _ => rewrite (Z.gtb_ltb a b) in H
    | |- context [(?a >? ?b)%Z] => rewrite (Z.gtb_ltb a b)
    | H : context [(?a <? ?b)%Z] |- _ => destruct (Z.ltb_spec a b)
    | |- context [(?a <? ?b)%Z] => destruct (Z.ltb_spec a b)
    end.

Section OneStep.

Variables M1 M2 M3 : list Z.

Lemma lex_sign P c :
  compare_by_lex M1 M2 P = Some c → (c = -1 ∨ c = 0 ∨ c = 1)%Z.
Proof.
  induction P as [|p P IH]; simpl; intros H.
  - injection H as <-. auto.
  - destruct (Py.index M1 p) as [a|]; [|discriminate].
    destruct (Py.index M2 p) as [b|]; [|discriminate].
    simpl in H. by_cases; simplify_eq; auto.
Qed.

Lemma lex_total P :
  indices_ok P M1 → indices_ok P M2 → is_Some (compare_by_lex M1 M2 P).
Proof.
  induction 1 as [|p P Hp _ IH]; intros H2; simpl; [eauto|].
  inversion H2 as [|? ? Hp2 H2']; subst.
  apply index_in_range in Hp as [a ->], Hp2 as [b ->]. simpl.
  by_cases; eauto.
Qed.

Lemma lex_flip P :
  compare_by_lex M2 M1 P = Z.opp <$> compare_by_lex M1 M2 P.
Proof.
  induction P as [|p P IH]; simpl; [done|].
  destruct (Py.index M1 p) as [a|], (Py.index M2 p) as [b|]; simpl; try done.
  by_cases; try lia; done.
Qed.

Lemma lex_trans P :
  compare_by_lex M1 M2 P = Some (-1)%Z →
  compare_by_lex M2 M3 P = Some (-1)%Z →
  compare_by_lex M1 M3 P = Some (-1)%Z.
Proof.
  induction P as [|p P IH]; simpl; [done|].
  destruct (Py.index M1 p) as [a|]; [|done].
  destruct (Py.index M2 p) as [b|]; [|done].
  destruct (Py.index M3 p) as [c|]; [|done].
  simpl. intros H12 H23. by_cases; simplify_eq; try lia; auto.
Qed.

End OneStep.

Section OneStepReverse.

Variables M1 M2 M3 : list Z.

Lemma grevlex_loop_sign P c :
  grevlex_loop M1 M2 P = Some c → (c = -1 ∨ c = 0 ∨ c = 1)%Z.
Proof.
  induction P as [|p P IH]; simpl; intros H.
  - injection H as <-. auto.
  - destruct (Py.index M1 p) as [a|]; [|discriminate].
    destruct (Py.index M2 p) as [b|]; [|discriminate].
    simpl in H. by_cases; simplify_eq; auto.
Qed.

Lemma grevlex_loop_total P :
  indices_ok P M1 → indices_ok P M2 → is_Some (grevlex_loop M1 M2 P).
Proof.
  induction 1 as [|p P Hp _ IH]; intros H2; simpl; [eauto|].
  inversion H2 as [|? ? Hp2 H2']; subst.
  apply index_in_range in Hp as [a ->], Hp2 as [b ->]. simpl.
  by_cases; eauto.
Qed.

Lemma grevlex_loop_flip P :
  grevlex_loop M2 M1 P = Z.opp <$> grevlex_loop M1 M2 P.
Proof.
  induction P as [|p P IH]; simpl; [done|].
  destruct (Py.index M1 p) as [a|], (Py.index M2 p) as [b|]; simpl; try done.
  by_cases; try lia; done.
Qed.

Lemma grevlex_loop_trans P :
  grevlex_loop M1 M2 P = Some (-1)%Z →
  grevlex_loop M2 M3 P = Some (-1)%Z →
  grevlex_loop M1 M3 P = Some (-1)%Z.
Proof.
  induction P as [|p P IH]; simpl; [done|].
  destruct (Py.index M1 p) as [a|]; [|done].
  destruct (Py.index M2 p) as [b|]; [|done].
  destruct (Py.index M3 p) as [c|]; [|done].
  simpl. intros H12 H23. by_cases; simplify_eq; try lia; auto.
Qed.

End OneStepReverse.

Lemma indices_ok_rev P M : indices_ok P M → indices_ok (rev P) M.
Proof. unfold indices_ok. apply Forall_rev. Qed.

Lemma lex_three_way P :
  three_way (indices_ok P) (λ M1 M2, compare_by_lex M1 M2 P).
Proof.
  split.
  - intros a b. apply lex_total.
  - intros a b c. apply lex_sign.
  - intros a b. apply lex_flip.
  - intros a b c. apply lex_trans.
Qed.

Lemma glex_three_way P :
  three_way (indices_ok P) (λ M1 M2, compare_by_glex M1 M2 P).
Proof.
  split; unfold compare_by_glex.
  - intros a b Ha Hb. by_cases; eauto. by apply lex_total.
  - intros a b c H. by_cases; simplify_eq; eauto using lex_sign.
  - intros a b. by_cases; try lia; try done. apply lex_flip.
  - intros a b c Hab Hbc. by_cases; simplify_eq; try lia; eauto using lex_trans.
Qed.

Lemma grevlex_three_way P :
  three_way (indices_ok P) (λ M1 M2, compare_by_grevlex M1 M2 P).
Proof.
  split; unfold compare_by_grevlex.
  - intros a b Ha Hb. by_cases; eauto.
    by apply grevlex_loop_total; apply indices_ok_rev.
  - intros a b c H. by_cases; simplify_eq; eauto using grevlex_loop_sign.
  - intros a b. by_cases; try lia; try done. apply grevlex_loop_flip.
  - intros a b c Hab Hbc.
    by_cases; simplify_eq; try lia; eauto using grevlex_loop_trans.
Qed.

Lemma three_way_refl ok compare a :
  three_way ok compare → ok a → compare a a = Some 0%Z.
Proof.
  intros Htw Ha. destruct (tw_total _ _ Htw a a Ha Ha) as [c Hc].
  pose proof (tw_flip _ _ Htw a a) as Hf. rewrite Hc in Hf. simpl in Hf.
  rewrite Hc. f_equal. injection Hf. lia.
Qed.

(** ** The loops of [determine] *)

Lemma store_in_range {A} (xs : list A) (i : nat) (v : A) :
  i < length xs → Py.store xs i v = Some (<[i := v]> xs).
Proof.
  intros Hi. unfold Py.store.
  destruct (Nat.ltb_spec i (length xs)); [done | lia].
Qed.

Lemma count_if_le {A} (f : A → bool) (l : list A) : count_if f l ≤ length l.
Proof. induction l as [|x l IH]; simpl; [lia|]. destruct (f x); lia. Qed.

Lemma count_if_lt {A} (f : A → bool) (l : list A) (x : A) :
  x ∈ l → f x = false → count_if f l < length l.
Proof.
  induction 1 as [y l|y z l _ IH]; simpl; intros Hx.
  - rewrite Hx. pose proof (count_if_le f l). lia.
  - specialize (IH Hx). destruct (f z); lia.
Qed.

Lemma count_if_mono {A} (f g : A → bool) (l : list A) :
  (∀ x, x ∈ l → f x = true → g x = true) → count_if f l ≤ count_if g l.
Proof.
  induction l as [|y l IH]; simpl; intros Hfg; [lia|].
  assert (count_if f l ≤ count_if g l) by (apply IH; intros; apply Hfg; [by right|done]).
  destruct (f y) eqn:Hf.
  - rewrite (Hfg y) by (done || by left). lia.
  - destruct (g y); lia.
Qed.

Lemma count_if_strict {A} (f g : A → bool) (l : list A) (x : A) :
  (∀ y, y ∈ l → f y = true → g y = true) →
  x ∈ l → f x = false → g x = true →
  count_if f l < count_if g l.
Proof.
  intros Hfg Hx. revert Hfg.
  induction Hx as [y l|y z l _ IH]; simpl; intros Hfg Hf Hg.
  - rewrite Hf, Hg.
    assert (count_if f l ≤ count_if g l); [|lia].
    apply count_if_mono. intros; apply Hfg; [by right|done].
  - assert (count_if f l < count_if g l).
    { apply IH; [|done..]. intros; apply Hfg; [by right|done]. }
    destruct (f z) eqn:Hfz.
    + rewrite (Hfg z) by (done || by left). lia.
    + destruct (g z); lia.
Qed.

Section Loops.

Variable compare : list Z → list Z → option Z.
Variable Terms : list (list Z).
Hypothesis returns : ∀ a b, a ∈ Terms → b ∈ Terms → is_Some (compare a b).

Lemma count_step_spec (i j : nat) (Ti Tj : list Z) (ci : nat)
  (Count : list nat) :
  Terms !! i = Some Ti → Terms !! j = Some Tj → Count !! i = Some ci →
  count_step compare Terms i j Count
  = Some (<[i := ci + (if is_less compare Ti Tj then 1 else 0)]> Count).
Proof.
  intros HTi HTj Hci. unfold count_step, is_less. rewrite HTi, HTj. simpl.
  destruct (returns Ti Tj) as [c ->]; [by eapply list_elem_of_lookup_2..|].
  simpl. destruct (c <? 0)%Z.
  - rewrite Hci. simpl. rewrite store_in_range by (by eapply lookup_lt_Some).
    do 2 f_equal. lia.
  - rewrite Nat.add_0_r. by rewrite list_insert_id.
Qed.

(** The loop over [j], from [j = k] on: [Count[i]] grows by the number
    of the remaining terms that are greater than [Terms[i]]. *)
Lemma count_steps (i : nat) (Ti : list Z) (m k ci : nat) (Count : list nat) :
  Terms !! i = Some Ti → Count !! i = Some ci → k + m ≤ length Terms →
  Py.for_in (seq k m) (count_step compare Terms i) Count
  = Some (<[i := ci + count_if (is_less compare Ti) (take m (drop k Terms))]>
            Count).
Proof.
  intros HTi. revert k ci Count.
  induction m as [|m IH]; intros k ci Count Hci Hk; simpl.
  - rewrite Nat.add_0_r. by rewrite list_insert_id.
  - destruct (lookup_lt_is_Some_2 Terms k) as [Tk HTk]; [lia|].
    rewrite (drop_S _ _ _ HTk). simpl.
    rewrite (count_step_spec i k Ti Tk ci) by done. simpl.
    assert (i < length Count) by (by eapply lookup_lt_Some).
    rewrite (IH (S k) (ci + (if is_less compare Ti Tk then 1 else 0))).
    + rewrite list_insert_insert_eq. do 2 f_equal. lia.
    + by apply list_lookup_insert_eq.
    + lia.
Qed.

Lemma count_row_spec (i : nat) (Ti : list Z) (Count : list nat) :
  Terms !! i = Some Ti → i < length Count →
  count_row compare Terms (length Terms) i Count
  = Some (<[i := rank compare Terms Ti]> Count).
Proof.
  intros HTi Hi. unfold count_row, Py.range.
  rewrite store_in_range by done. simpl.
  rewrite (count_steps i Ti _ 0 0); [|done| |lia].
  - rewrite list_insert_insert_eq, drop_0, firstn_all. done.
  - by apply list_lookup_insert_eq.
Qed.

(** The loop over [i], from [i = k] on. *)
Lemma count_rows (m k : nat) (Count : list nat) :
  length Count = length Terms → k + m ≤ length Terms →
  ∃ Count', Py.for_in (seq k m) (count_row compare Terms (length Terms)) Count
            = Some Count'
    ∧ length Count' = length Terms
    ∧ ∀ j, Count' !! j = if decide (k ≤ j < k + m)
                         then rank compare Terms <$> Terms !! j
                         else Count !! j.
Proof.
  revert k Count. induction m as [|m IH]; intros k Count Hlen Hk; simpl.
  - exists Count. split_and!; [done..|]. intros j. case_decide; [lia|done].
  - destruct (lookup_lt_is_Some_2 Terms k) as [Tk HTk]; [lia|].
    rewrite (count_row_spec k Tk) by (done || lia). simpl.
    destruct (IH (S k) (<[k := rank compare Terms Tk]> Count))
      as (Count' & -> & Hlen' & Hget); [by rewrite length_insert | lia |].
    exists Count'. split_and!; [done..|]. intros j. rewrite Hget.
    destruct (decide (j = k)) as [->|Hne].
    + rewrite decide_False by lia. rewrite decide_True by lia.
      rewrite list_lookup_insert_eq by lia. by rewrite HTk.
    + rewrite list_lookup_insert_ne by done.
      repeat case_decide; try lia; done.
Qed.

Lemma populate_spec :
  populate compare Terms = Some (rank compare Terms <$> Terms).
Proof.
  unfold populate.
  destruct (count_rows (length Terms) 0 (replicate (length Terms) 0))
    as (Count' & Hrun & Hlen & Hget); [by rewrite length_replicate | lia |].
  unfold Py.range. rewrite Hrun. f_equal. apply list_eq. intros j. rewrite Hget, list_lookup_fmap.
  case_decide; [done|].
  rewrite (lookup_ge_None_2 Terms) by lia.
  by rewrite (lookup_ge_None_2 (replicate _ _)) by (rewrite length_replicate; lia).
Qed.

End Loops.

Section Placing.

Variable Terms : list (list Z).
Variable Count : list nat.
Hypothesis Count_length : length Count = length Terms.

Lemma place_spec (i ci : nat) (Ti : list Z) (out : slots) :
  Terms !! i = Some Ti → Count !! i = Some ci → ci < length out →
  place Terms Count i out = Some (<[ci := Some Ti]> out).
Proof.
  intros HTi Hci Hlt. unfold place. rewrite HTi, Hci. simpl.
  by apply store_in_range.
Qed.

(** The second loop, from [i = k] on: a slot keeps its content unless
    some [Count[i]] points at it, and then it holds the term of the last
    such [i]. *)
Lemma place_loop (m k : nat) (out : slots) :
  k + m ≤ length Terms →
  (∀ i c, Count !! i = Some c → c < length out) →
  ∃ r, Py.for_in (seq k m) (place Terms Count) out = Some r
    ∧ length r = length out
    ∧ ∀ p, (r !! p = out !! p ∧ ∀ i, k ≤ i < k + m → Count !! i ≠ Some p)
         ∨ (∃ i Ti, k ≤ i < k + m ∧ Count !! i = Some p
                    ∧ Terms !! i = Some Ti ∧ r !! p = Some (Some Ti)
                    ∧ ∀ j, i < j < k + m → Count !! j ≠ Some p).
Proof.
  revert k out. induction m as [|m IH]; intros k out Hk Hbound; simpl.
  - exists out. split_and!; [done..|]. intros p. left. split; [done|lia].
  - destruct (lookup_lt_is_Some_2 Terms k) as [Tk HTk]; [lia|].
    destruct (lookup_lt_is_Some_2 Count k) as [ck Hck]; [lia|].
    pose proof (Hbound k ck Hck) as Hlt.
    rewrite (place_spec k ck Tk) by done. simpl.
    destruct (IH (S k) (<[ck := Some Tk]> out)) as (r & -> & Hlen & Hr).
    { lia. }
    { intros i c Hc. rewrite length_insert. eauto. }
    rewrite length_insert in Hlen.
    exists r. split_and!; [done..|]. intros p.
    destruct (Hr p) as [[Hsame Hnone]|(i & Ti & Hi & Hc & HT & Hp & Hlast)].
    + destruct (decide (p = ck)) as [->|Hne].
      * right. exists k, Tk. split_and!; try done; try lia.
        -- rewrite Hsame. by apply list_lookup_insert_eq.
        -- intros j Hj. apply Hnone. lia.
      * left. split.
        -- rewrite Hsame. by apply list_lookup_insert_ne.
        -- intros i Hi. destruct (decide (i = k)) as [->|];
             [congruence | apply Hnone; lia].
    + right. exists i, Ti. split_and!; try done; try lia.
      intros j Hj. apply Hlast. lia.
Qed.

End Placing.

(** ** [determine] over a three-way comparator *)

Section Ranking.

Variable compare : list Z → list Z → option Z.
Variable ok : list Z → Prop.
Variable Terms : list (list Z).
Hypothesis laws : three_way ok compare.
Hypothesis Terms_ok : Forall ok Terms.

Lemma term_ok (t : list Z) : t ∈ Terms → ok t.
Proof. intros Ht. by eapply Forall_forall in Terms_ok. Qed.

Lemma compare_returns (a b : list Z) :
  a ∈ Terms → b ∈ Terms → is_Some (compare a b).
Proof. intros Ha Hb. apply (tw_total _ _ laws); by apply term_ok. Qed.

Lemma rank_lt (t : list Z) : t ∈ Terms → rank compare Terms t < length Terms.
Proof.
  intros Ht. apply (count_if_lt _ _ t); [done|].
  unfold is_less. by rewrite (three_way_refl ok) by (done || by apply term_ok).
Qed.

Lemma is_less_true (a b : list Z) :
  is_less compare a b = true ↔ compare a b = Some (-1)%Z.
Proof.
  unfold is_less. split.
  - destruct (compare a b) as [c|] eqn:Hc; [|done].
    destruct (tw_sign _ _ laws a b c Hc) as [-> | [-> | ->]]; done.
  - by intros ->.
Qed.

(** A smaller term has more terms above it. *)
Lemma less_rank (a b : list Z) :
  b ∈ Terms → ok b → compare a b = Some (-1)%Z →
  rank compare Terms b < rank compare Terms a.
Proof.
  intros Hb Hokb Hab. apply (count_if_strict _ _ _ b); [|done| |].
  - intros c _ Hbc%is_less_true. apply is_less_true.
    by apply (tw_trans _ _ laws a b c).
  - unfold is_less. by rewrite (three_way_refl ok).
  - by apply is_less_true.
Qed.

(** What [determine] returns, slot by slot. *)
Lemma determine_slots :
  ∃ out, determine compare Terms = Some out
    ∧ length out = length Terms
    ∧ ∀ p, (out !! p = replicate (length Terms) None !! p
            ∧ ∀ i Ti, Terms !! i = Some Ti → rank compare Terms Ti ≠ p)
         ∨ (∃ i Ti, Terms !! i = Some Ti ∧ rank compare Terms Ti = p
                    ∧ out !! p = Some (Some Ti)
                    ∧ ∀ j Tj, i < j → Terms !! j = Some Tj →
                              rank compare Terms Tj ≠ p).
Proof.
  unfold determine. rewrite populate_spec by apply compare_returns. simpl.
  set (Count := rank compare Terms <$> Terms).
  assert (HCount : ∀ i c, Count !! i = Some c ↔
            ∃ Ti, Terms !! i = Some Ti ∧ c = rank compare Terms Ti).
  { intros i c. unfold Count. rewrite list_lookup_fmap.
    destruct (Terms !! i) as [t|]; simpl; split.
    - intros [= <-]. eauto.
    - by intros (? & [= <-] & ->).
    - done.
    - by intros (? & ? & _). }
  destruct (place_loop Terms Count (length_fmap _ _) (length Terms) 0
              (replicate (length Terms) None)) as (out & Hrun & Hlen & Hout).
  { lia. }
  { intros i c (Ti & HTi & ->)%HCount. rewrite length_replicate.
    apply rank_lt. by eapply list_elem_of_lookup_2. }
  rewrite length_replicate in Hlen.
  exists out. split_and!; [done..|]. intros p.
  destruct (Hout p) as [[Hsame Hnone]|(i & Ti & Hi & Hc & HT & Hp & Hlast)].
  - left. split; [done|]. intros i Ti HTi <-.
    apply (Hnone i).
    + apply lookup_lt_Some in HTi. lia.
    + apply HCount. eauto.
  - right. exists i, Ti. apply HCount in Hc as (Ti' & HTi' & ->).
    simplify_eq. split_and!; try done.
    intros j Tj Hj HTj Hrank. apply (Hlast j).
    + apply lookup_lt_Some in HTj. lia.
    + apply HCount. eauto.
Qed.

(** A term is found at its rank unless a later term has the same rank. *)
Lemma determine_places (out : slots) (i : nat) (Ti : list Z) :
  determine compare Terms = Some out → Terms !! i = Some Ti →
  (∀ j Tj, i < j → Terms !! j = Some Tj →
           rank compare Terms Tj ≠ rank compare Terms Ti) →
  out !! rank compare Terms Ti = Some (Some Ti).
Proof.
  intros Hout HTi Hlast.
  destruct determine_slots as (out' & Hout' & _ & Hslots).
  rewrite Hout in Hout'. injection Hout' as <-.
  destruct (Hslots (rank compare Terms Ti))
    as [[_ Hnone]|(i' & Ti' & HTi' & Hrk & Hget & Hlast')].
  - by destruct (Hnone i Ti).
  - destruct (Nat.lt_total i i') as [Hlt|[->|Hlt]].
    + by destruct (Hlast i' Ti').
    + by simplify_eq.
    + by destruct (Hlast' i Ti).
Qed.

(** A filled slot holds a term of the collection, at its rank. *)
Lemma determine_filled (out : slots) (p : nat) (t : list Z) :
  determine compare Terms = Some out → out !! p = Some (Some t) →
  ∃ i, Terms !! i = Some t ∧ rank compare Terms t = p.
Proof.
  intros Hout Hp.
  destruct determine_slots as (out' & Hout' & _ & Hslots).
  rewrite Hout in Hout'. injection Hout' as <-.
  destruct (Hslots p) as [[Hsame _]|(i & Ti & HTi & Hrk & Hget & _)].
  - rewrite Hp in Hsame. symmetry in Hsame.
    apply lookup_replicate in Hsame as [? _]. done.
  - rewrite Hp in Hget. simplify_eq. eauto.
Qed.

End Ranking.

Section Sorting.

Variable compare : list Z → list Z → option Z.
Variable ok : list Z → Prop.
Variable Terms : list (list Z).
Hypothesis laws : three_way ok compare.
Hypothesis Terms_ok : Forall ok Terms.
Hypothesis distinct : pairwise_distinct compare Terms.

(** Terms at different positions are ordered one way or the other, and
    their ranks tell which way. *)
Lemma rank_decides (i j : nat) (a b : list Z) :
  Terms !! i = Some a → Terms !! j = Some b → i ≠ j →
  (compare a b = Some (-1)%Z ∧ rank compare Terms b < rank compare Terms a)
  ∨ (compare a b = Some 1%Z ∧ rank compare Terms a < rank compare Terms b).
Proof.
  intros Ha Hb Hne.
  assert (a ∈ Terms) as Hina by (by eapply list_elem_of_lookup_2).
  assert (b ∈ Terms) as Hinb by (by eapply list_elem_of_lookup_2).
  destruct (compare_returns compare ok Terms laws Terms_ok a b) as [c Hc];
    [done..|].
  destruct (tw_sign _ _ laws a b c Hc) as [-> | [-> | ->]].
  - left. split; [done|].
    apply (less_rank compare ok); [done..| |done].
    by apply (term_ok ok Terms).
  - by destruct (distinct i j a b).
  - right. split; [done|].
    apply (less_rank compare ok); [done..| |].
    + by apply (term_ok ok Terms).
    + rewrite (tw_flip _ _ laws a b), Hc. done.
Qed.

Lemma rank_inj (i j : nat) (a b : list Z) :
  Terms !! i = Some a → Terms !! j = Some b →
  rank compare Terms a = rank compare Terms b → i = j.
Proof.
  intros Ha Hb Hrk. destruct (decide (i = j)) as [|Hne]; [done|].
  destruct (rank_decides i j a b) as [[_ ?]|[_ ?]]; try done; lia.
Qed.

(** Without ties every slot is filled: the output lists the terms, each
    once, from the greatest to the least. *)
Lemma determine_sorted :
  ∃ out, determine compare Terms = Some (Some <$> out)
    ∧ out ≡ₚ Terms
    ∧ ∀ i j a b, i < j → out !! i = Some a → out !! j = Some b →
                 compare a b = Some 1%Z.
Proof.
  destruct (determine_slots compare ok Terms laws Terms_ok)
    as (out & Hout & Hlen & _).
  assert (Hperm : Some <$> Terms ≡ₚ out).
  { apply Permutation_inj. split; [by rewrite length_fmap|].
    exists (λ i, match Terms !! i with Some t => rank compare Terms t | None => i end).
    split.
    - intros i j Hij.
      destruct (Terms !! i) as [a|] eqn:Ha, (Terms !! j) as [b|] eqn:Hb.
      + by eapply rank_inj.
      + apply lookup_ge_None in Hb.
        pose proof (rank_lt compare ok Terms laws Terms_ok a) as Hlt.
        rewrite Hij in Hlt.
        apply list_elem_of_lookup_2 in Ha. specialize (Hlt Ha). lia.
      + apply lookup_ge_None in Ha.
        pose proof (rank_lt compare ok Terms laws Terms_ok b) as Hlt.
        rewrite <- Hij in Hlt.
        apply list_elem_of_lookup_2 in Hb. specialize (Hlt Hb). lia.
      + done.
    - intros i. rewrite list_lookup_fmap.
      destruct (Terms !! i) as [a|] eqn:Ha; simpl.
      + symmetry.
        apply (determine_places compare ok Terms laws Terms_ok out i a);
          [done..|].
        intros j b Hlt Hb Hrk.
        assert (j = i) by (by eapply rank_inj). lia.
      + symmetry. apply lookup_ge_None. apply lookup_ge_None in Ha. lia. }
  symmetry in Hperm. apply Permutation_map_inv in Hperm as (out' & -> & Hperm).
  exists out'. split_and!; [done | by symmetry |].
  intros i j a b Hlt Ha Hb.
  destruct (determine_filled compare ok Terms laws Terms_ok _ i a Hout)
    as (i0 & Hi0 & Hri); [by rewrite list_lookup_fmap, Ha|].
  destruct (determine_filled compare ok Terms laws Terms_ok _ j b Hout)
    as (j0 & Hj0 & Hrj); [by rewrite list_lookup_fmap, Hb|].
  destruct (rank_decides i0 j0 a b) as [[_ ?]|[? _]]; try done.
  - intros ->. simplify_eq. lia.
  - lia.
Qed.

End Sorting.

(** ** The three orders at once *)

Lemma compare_by_three_way (o : ordering) (P : list Z) :
  three_way (indices_ok P) (λ M1 M2, compare_by o M1 M2 P).
Proof.
  destruct o; [apply lex_three_way | apply glex_three_way
              | apply grevlex_three_way].
Qed.

Lemma determine_by_unfold (o : ordering) (Terms : list (list Z)) (P : list Z) :
  determine_by o Terms P = determine (λ M1 M2, compare_by o M1 M2 P) Terms.
Proof. by destruct o. Qed.

(** * The comparators *)

(** C4. When the total degrees of [M1] and [M2] differ, [compare_by_glex]
    and [compare_by_grevlex] both return the sign of
    [sum(M1) - sum(M2)], whatever [P] is: [P] is not even read. *)
Theorem degree_precedence (M1 M2 P : list Z) :
  Py.sum M1 ≠ Py.sum M2 →
  compare_by_glex M1 M2 P = Some (Z.sgn (Py.sum M1 - Py.sum M2))
  ∧ compare_by_grevlex M1 M2 P = Some (Z.sgn (Py.sum M1 - Py.sum M2)).
Proof.
  intros Hne. unfold compare_by_glex, compare_by_grevlex.
  split; by_cases; try lia; f_equal; lia.
Qed.

Lemma degree_precedence_witness :
  compare_by_glex [1; 2]%Z [0; 1]%Z [7; 7]%Z = Some 1%Z
  ∧ compare_by_grevlex [1; 2]%Z [0; 1]%Z [7; 7]%Z = Some 1%Z.
Proof.
  apply (degree_precedence [1; 2]%Z [0; 1]%Z [7; 7]%Z). vm_compute. discriminate.
Defined.

(** C5. Each comparator is antisymmetric and returns 0 on equal
    arguments: for vectors [A], [B] that can be read at every entry of
    [P], [compare(A,B,P)] returns some [c], [compare(B,A,P)] returns
    [-c], and [compare(A,A,P)] returns 0. *)
Theorem comparators_antisymmetric (o : ordering) (A B P : list Z) :
  indices_ok P A → indices_ok P B →
  ∃ c, compare_by o A B P = Some c
     ∧ compare_by o B A P = Some (- c)%Z
     ∧ compare_by o A A P = Some 0%Z.
Proof.
  intros HA HB. pose proof (compare_by_three_way o P) as laws.
  destruct (tw_total _ _ laws A B HA HB) as [c Hc].
  exists c. split_and!.
  - done.
  - rewrite (tw_flip _ _ laws A B). simpl in *. by rewrite Hc.
  - by apply (three_way_refl (indices_ok P) (λ M1 M2, compare_by o M1 M2 P)).
Qed.

Lemma indices_ok_intro (P M : list Z) :
  forallb (λ p, (- Z.of_nat (length M) <=? p)%Z
                && (p <? Z.of_nat (length M))%Z) P = true →
  indices_ok P M.
Proof.
  intros H. apply Forall_forall. intros p Hp%list_elem_of_In.
  rewrite forallb_forall in H. specialize (H p Hp).
  apply andb_true_iff in H as [H1%Z.leb_le H2%Z.ltb_lt]. by split.
Qed.

Lemma comparators_antisymmetric_witness :
  ∃ c, compare_by Grevlex [2; 8; 0]%Z [5; 1; 4]%Z [2; 1; 0]%Z = Some c
     ∧ compare_by Grevlex [5; 1; 4]%Z [2; 8; 0]%Z [2; 1; 0]%Z = Some (- c)%Z
     ∧ compare_by Grevlex [2; 8; 0]%Z [2; 8; 0]%Z [2; 1; 0]%Z = Some 0%Z.
Proof.
  apply (comparators_antisymmetric Grevlex [2; 8; 0]%Z [5; 1; 4]%Z [2; 1; 0]%Z);
    apply indices_ok_intro; reflexivity.
Defined.

(** C6. For vectors of equal total degree [compare_by_glex] is
    [compare_by_lex]: same result, and it raises exactly when
    [compare_by_lex] does. *)
Theorem glex_tie_is_lex (M1 M2 P : list Z) :
  Py.sum M1 = Py.sum M2 →
  compare_by_glex M1 M2 P = compare_by_lex M1 M2 P.
Proof.
  intros Heq. unfold compare_by_glex. by_cases; try lia. done.
Qed.

Lemma glex_tie_is_lex_witness :
  compare_by_glex [1; 4; 0]%Z [1; 1; 3]%Z [2; 1; 0]%Z
  = compare_by_lex [1; 4; 0]%Z [1; 1; 3]%Z [2; 1; 0]%Z.
Proof.
  apply (glex_tie_is_lex [1; 4; 0]%Z [1; 1; 3]%Z [2; 1; 0]%Z). reflexivity.
Defined.

(** Two vectors of one length that differ at one coordinate only differ
    in total degree by their difference there; in particular their total
    degrees are not equal. *)
Lemma differ_at_one_sum (M1 M2 : list Z) (q : nat) (a b : Z) :
  length M1 = length M2 →
  (∀ k, k ≠ q → M1 !! k = M2 !! k) →
  M1 !! q = Some a → M2 !! q = Some b →
  (Py.sum M1 - Py.sum M2 = a - b)%Z.
Proof.
  revert M2 q. induction M1 as [|x M1 IH]; intros [|y M2] q Hlen Hsame Ha Hb;
    try done.
  rewrite !sum_cons. destruct q as [|q]; simpl in *.
  - simplify_eq. assert (M1 = M2) as ->; [|lia].
    apply list_eq. intros k. apply (Hsame (S k)). lia.
  - pose proof (Hsame 0 ltac:(lia)) as H0. simpl in H0. simplify_eq.
    assert (Py.sum M1 - Py.sum M2 = a - b)%Z; [|lia].
    apply (IH M2 q); [lia| |done..]. intros k Hk. apply (Hsame (S k)). lia.
Qed.

(** C7. For vectors of equal total degree, when [M1]'s exponent at the
    coordinate the last entry of [P] names is strictly greater than
    [M2]'s, [compare_by_grevlex] returns -1: the reversed scan reads that
    coordinate first and inverts the comparison.  Nothing is asked of
    the other coordinates. *)
Theorem grevlex_last_entry_inversion (M1 M2 P : list Z) (p a b : Z) :
  Py.sum M1 = Py.sum M2 →
  last P = Some p →
  Py.index M1 p = Some a → Py.index M2 p = Some b → (a > b)%Z →
  compare_by_grevlex M1 M2 P = Some (-1)%Z.
Proof.
  intros Hdeg Hlast Ha Hb Hgt. unfold compare_by_grevlex.
  apply last_Some in Hlast as [P' ->].
  rewrite rev_unit. simpl. rewrite Ha, Hb. simpl.
  by_cases; try lia; done.
Qed.

Lemma grevlex_last_entry_inversion_witness :
  compare_by_grevlex [0; 1; 2]%Z [1; 2; 0]%Z [0; 1; 2]%Z = Some (-1)%Z.
Proof.
  apply (grevlex_last_entry_inversion
           [0; 1; 2]%Z [1; 2; 0]%Z [0; 1; 2]%Z 2%Z 2%Z 0%Z);
    [reflexivity | reflexivity | reflexivity | reflexivity | lia].
Defined.

(** C9. For vectors that can be read at every entry of [P],
    [compare_by_lex] returns 0 exactly when the two vectors agree at
    [P[i]] for every position [i] of [P]; with an empty [P] it returns 0
    for every pair of vectors. *)
Theorem lex_zero_iff (M1 M2 P : list Z) :
  indices_ok P M1 → indices_ok P M2 →
  (compare_by_lex M1 M2 P = Some 0%Z
   ↔ ∀ i p, P !! i = Some p → Py.index M1 p = Py.index M2 p)
  ∧ compare_by_lex M1 M2 [] = Some 0%Z.
Proof.
  intros H1 H2. split; [|done]. revert H2.
  induction H1 as [|p P Hp _ IH]; intros H2.
  - split; [|done]. by intros _ i p.
  - inversion H2 as [|? ? Hp2 H2']; subst. specialize (IH H2').
    apply index_in_range in Hp as [a Ha], Hp2 as [b Hb].
    simpl. rewrite Ha, Hb. simpl. split.
    + intros H. by_cases; simplify_eq.
      assert (a = b) as -> by lia.
      intros [|i] q Hq; simpl in Hq; simplify_eq; [congruence|].
      by apply (proj1 IH H i).
    + intros H. pose proof (H 0 p eq_refl) as H0.
      rewrite Ha, Hb in H0. simplify_eq.
      by_cases; try lia. apply IH. intros i q Hq. by apply (H (S i)).
Qed.

Lemma lex_zero_iff_witness :
  (compare_by_lex [1; 2]%Z [1; 3]%Z [0]%Z = Some 0%Z
   ↔ ∀ i p, [0%Z] !! i = Some p
            → Py.index [1; 2]%Z p = Py.index [1; 3]%Z p)
  ∧ compare_by_lex [1; 2]%Z [1; 3]%Z [] = Some 0%Z.
Proof.
  apply (lex_zero_iff [1; 2]%Z [1; 3]%Z [0]%Z);
    apply indices_ok_intro; reflexivity.
Defined.

(** * The rankings *)

Lemma well_formed_intro (Terms : list (list Z)) (P : list Z) :
  forallb (λ M, forallb (λ p, (- Z.of_nat (length M) <=? p)%Z
                              && (p <? Z.of_nat (length M))%Z) P) Terms = true →
  well_formed Terms P.
Proof.
  intros H. apply Forall_forall. intros M HM%list_elem_of_In.
  rewrite forallb_forall in H. apply indices_ok_intro. by apply H.
Qed.

(** Distinctness of a given collection can be checked by running the
    comparator on every pair of positions. *)
Lemma pairwise_distinct_intro (compare : list Z → list Z → option Z)
  (Terms : list (list Z)) :
  forallb (λ i, forallb (λ j,
    (i =? j) || match Terms !! i, Terms !! j with
                | Some a, Some b =>
                    match compare a b with Some 0%Z => false | _ => true end
                | _, _ => true
                end) (seq 0 (length Terms))) (seq 0 (length Terms)) = true →
  pairwise_distinct compare Terms.
Proof.
  intros H i j a b Hne Ha Hb Hc.
  rewrite forallb_forall in H. specialize (H i).
  rewrite forallb_forall in H.
  assert (i < length Terms) as Hi by (by eapply lookup_lt_Some).
  assert (j < length Terms) as Hj by (by eapply lookup_lt_Some).
  specialize (H ltac:(apply in_seq; lia) j ltac:(apply in_seq; lia)).
  rewrite Ha, Hb, Hc in H. apply orb_true_iff in H as [H%Nat.eqb_eq|H]; done.
Qed.

(** C1, on a collection of two distinct terms: the output is a
    permutation of the input, but its adjacent pair compares as +1, not
    as [<= 0]. *)
Lemma ascending_output_fails :
  well_formed [[0]; [1]]%Z [0]%Z
  ∧ pairwise_distinct (λ M1 M2, compare_by_lex M1 M2 [0]%Z) [[0]; [1]]%Z
  ∧ ¬ ∃ out, determine_by_lex [[0]; [1]]%Z [0]%Z = Some (Some <$> out)
           ∧ out ≡ₚ [[0]; [1]]%Z
           ∧ ∀ i a b, out !! i = Some a → out !! S i = Some b →
                      ∃ c, compare_by_lex a b [0]%Z = Some c ∧ (c ≤ 0)%Z.
Proof.
  split_and!.
  - by apply well_formed_intro.
  - by apply pairwise_distinct_intro.
  - intros (out & Hout & _ & Hsorted).
    vm_compute in Hout. injection Hout as Hout.
    destruct out as [|a [|b [|]]]; try done. simplify_eq.
    destruct (Hsorted 0 [1]%Z [0]%Z eq_refl eq_refl) as (c & Hc & Hle).
    vm_compute in Hc. injection Hc as <-. lia.
Qed.

(** C1. For a well-formed collection whose terms are pairwise distinct
    under the comparator, each [determine_by_*] returns a permutation of
    the input, every slot filled, in which any term at an earlier position
    compares as +1 (greater) with any term at a later position, adjacent
    ones in particular: the output is in descending order. *)
Theorem determine_descending (o : ordering) (Terms : list (list Z))
  (P : list Z) :
  well_formed Terms P →
  pairwise_distinct (λ M1 M2, compare_by o M1 M2 P) Terms →
  ∃ out, determine_by o Terms P = Some (Some <$> out)
       ∧ out ≡ₚ Terms
       ∧ ∀ i j a b, i < j → out !! i = Some a → out !! j = Some b →
                    compare_by o a b P = Some 1%Z.
Proof.
  intros Hwf Hdistinct. rewrite determine_by_unfold.
  apply (determine_sorted _ (indices_ok P));
    [apply compare_by_three_way | done..].
Qed.

Lemma determine_descending_witness :
  ∃ out, determine_by Grevlex Terms_223b Procedure_223b = Some (Some <$> out)
       ∧ out ≡ₚ Terms_223b
       ∧ ∀ i j a b, i < j → out !! i = Some a → out !! j = Some b →
                    compare_by Grevlex a b Procedure_223b = Some 1%Z.
Proof.
  apply (determine_descending Grevlex Terms_223b Procedure_223b).
  - by apply well_formed_intro.
  - by apply pairwise_distinct_intro.
Defined.

(** C2, on the same collection: [[0]] has no term below it, yet slot 0
    of the output holds [[1]]. *)
Lemma rank_below_placement_fails :
  ¬ ∃ out, determine_by_lex [[0]; [1]]%Z [0]%Z = Some out
         ∧ ∀ i Ti, [[0]; [1]]%Z !! i = Some Ti →
             out !! rank_below (λ M1 M2, compare_by_lex M1 M2 [0]%Z)
                      [[0]; [1]]%Z Ti
             = Some (Some Ti).
Proof.
  intros (out & Hout & Hplace).
  vm_compute in Hout. injection Hout as <-.
  specialize (Hplace 0 [0]%Z eq_refl). vm_compute in Hplace. done.
Qed.

(** C2. For a well-formed collection, each [determine_by_*] stores
    [Terms[i]] at the position equal to the number of terms strictly
    greater than it (those [u] with [compare(Terms[i], u, P) < 0]); the
    term is found there in the output unless a later term has the same
    count and is stored over it. *)
Theorem determine_rank_placement (o : ordering) (Terms : list (list Z))
  (P : list Z) :
  well_formed Terms P →
  ∃ out, determine_by o Terms P = Some out
       ∧ populate (λ M1 M2, compare_by o M1 M2 P) Terms
         = Some (rank (λ M1 M2, compare_by o M1 M2 P) Terms <$> Terms)
       ∧ ∀ i Ti, Terms !! i = Some Ti →
           (∀ j Tj, i < j → Terms !! j = Some Tj →
              rank (λ M1 M2, compare_by o M1 M2 P) Terms Tj
              ≠ rank (λ M1 M2, compare_by o M1 M2 P) Terms Ti) →
           out !! rank (λ M1 M2, compare_by o M1 M2 P) Terms Ti
           = Some (Some Ti).
Proof.
  intros Hwf. pose proof (compare_by_three_way o P) as laws.
  destruct (determine_slots _ _ Terms laws Hwf) as (out & Hout & _ & _).
  exists out. rewrite determine_by_unfold. split_and!; [done| |].
  - apply populate_spec. by apply (compare_returns _ (indices_ok P)).
  - intros i Ti HTi Hlast.
    by apply (determine_places _ _ Terms laws Hwf out i Ti).
Qed.

Lemma determine_rank_placement_witness :
  ∃ out, determine_by Lex Terms_223b Procedure_223b = Some out
       ∧ populate (λ M1 M2, compare_by Lex M1 M2 Procedure_223b) Terms_223b
         = Some (rank (λ M1 M2, compare_by Lex M1 M2 Procedure_223b)
                   Terms_223b <$> Terms_223b)
       ∧ ∀ i Ti, Terms_223b !! i = Some Ti →
           (∀ j Tj, i < j → Terms_223b !! j = Some Tj →
              rank (λ M1 M2, compare_by Lex M1 M2 Procedure_223b)
                Terms_223b Tj
              ≠ rank (λ M1 M2, compare_by Lex M1 M2 Procedure_223b)
                  Terms_223b Ti) →
           out !! rank (λ M1 M2, compare_by Lex M1 M2 Procedure_223b)
                    Terms_223b Ti
           = Some (Some Ti).
Proof.
  apply (determine_rank_placement Lex Terms_223b Procedure_223b).
  by apply well_formed_intro.
Defined.

(** C3, as the specification words it: it does not hold of the output,
    in which [[5,1,4]] comes first. *)
Lemma scenario_A_as_specified_fails :
  ¬ ∃ out, determine_by_lex Terms_223b Procedure_223b = Some out
         ∧ appears_before out [1; 1; 3]%Z [2; 8; 0]%Z
         ∧ appears_before out [1; 1; 3]%Z [5; 1; 4]%Z
         ∧ appears_before out [1; 4; 0]%Z [2; 8; 0]%Z
         ∧ appears_before out [1; 4; 0]%Z [5; 1; 4]%Z
         ∧ last out = Some (Some [5; 1; 4]%Z).
Proof.
  intros (out & Hout & _ & _ & _ & _ & Hlast).
  vm_compute in Hout. injection Hout as <-. vm_compute in Hlast. done.
Qed.

(** C3. On the terms of exercise 2.2.3.b with [P = [2,1,0]],
    [determine_by_lex] returns [[5,1,4], [1,1,3], [2,8,0], [1,4,0]]:
    [[5,1,4]] comes first, then [[1,1,3]], then [[2,8,0]], and [[1,4,0]]
    comes last. *)
Theorem scenario_A_lex :
  determine_by_lex Terms_223b Procedure_223b
  = Some [Some [5; 1; 4]; Some [1; 1; 3]; Some [2; 8; 0]; Some [1; 4; 0]]%Z.
Proof. vm_compute. reflexivity. Qed.

(** C8. On [Terms = [[1,0],[1,0]]] with [P = [0,1]], under each of the
    three orders both counters are 0, so both terms are stored in slot 0:
    the output holds [[1,0]] in slot 0 and nothing in slot 1. *)
Theorem rank_collision (o : ordering) :
  populate (λ M1 M2, compare_by o M1 M2 [0; 1]%Z) [[1; 0]; [1; 0]]%Z
  = Some [0; 0]
  ∧ determine_by o [[1; 0]; [1; 0]]%Z [0; 1]%Z = Some [Some [1; 0]%Z; None].
Proof. destruct o; split; vm_compute; reflexivity. Qed.

(** C10. For a well-formed collection, empty or with ties or duplicates
    included, each [determine_by_*] returns a sequence as long as the
    collection in which every filled slot holds one of its terms. *)
Theorem determine_length_and_content (o : ordering) (Terms : list (list Z))
  (P : list Z) :
  well_formed Terms P →
  ∃ out, determine_by o Terms P = Some out
       ∧ length out = length Terms
       ∧ ∀ p t, out !! p = Some (Some t) → t ∈ Terms.
Proof.
  intros Hwf. pose proof (compare_by_three_way o P) as laws.
  destruct (determine_slots _ _ Terms laws Hwf) as (out & Hout & Hlen & _).
  exists out. rewrite determine_by_unfold. split_and!; [done..|].
  intros p t Hp.
  destruct (determine_filled _ _ Terms laws Hwf out p t Hout Hp)
    as (i & Hi & _).
  by eapply list_elem_of_lookup_2.
Qed.

Lemma determine_length_and_content_witness :
  ∃ out, determine_by Glex [[1; 0]; [0; 1]; [1; 0]]%Z [0; 1]%Z = Some out
       ∧ length out = length [[1; 0]; [0; 1]; [1; 0]]%Z
       ∧ ∀ p t, out !! p = Some (Some t) → t ∈ [[1; 0]; [0; 1]; [1; 0]]%Z.
Proof.
  apply (determine_length_and_content Glex [[1; 0]; [0; 1]; [1; 0]]%Z [0; 1]%Z).
  by apply well_formed_intro.
Defined.

(** * Further properties of the comparators *)

(** ** The comparators as orders *)

Ltac by_sign :=
  f_equal;
  repeat match goal with
    | H : compare_by_lex _ _ _ = Some _ |- _ => apply lex_sign in H
    | H : grevlex_loop _ _ _ = Some _ |- _ => apply grevlex_loop_sign in H
    end;
  lia.

Lemma lex_compose (M1 M2 M3 P : list Z) (x y : Z) :
  compare_by_lex M1 M2 P = Some x → compare_by_lex M2 M3 P = Some y →
  (x ≤ 0)%Z → (y ≤ 0)%Z →
  compare_by_lex M1 M3 P = Some (x `min` y)%Z.
Proof.
  revert x y. induction P as [|p P IH]; simpl; intros x y.
  - by intros [= <-] [= <-] _ _.
  - destruct (Py.index M1 p) as [a|]; [|done].
    destruct (Py.index M2 p) as [b|]; [|done].
    destruct (Py.index M3 p) as [c|]; [|done].
    simpl. intros H12 H23 Hx Hy.
    by_cases; simplify_eq; try lia; try done; try by_sign.
    by apply IH.
Qed.

Lemma grevlex_loop_compose (M1 M2 M3 P : list Z) (x y : Z) :
  grevlex_loop M1 M2 P = Some x → grevlex_loop M2 M3 P = Some y →
  (x ≤ 0)%Z → (y ≤ 0)%Z →
  grevlex_loop M1 M3 P = Some (x `min` y)%Z.
Proof.
  revert x y. induction P as [|p P IH]; simpl; intros x y.
  - by intros [= <-] [= <-] _ _.
  - destruct (Py.index M1 p) as [a|]; [|done].
    destruct (Py.index M2 p) as [b|]; [|done].
    destruct (Py.index M3 p) as [c|]; [|done].
    simpl. intros H12 H23 Hx Hy.
    by_cases; simplify_eq; try lia; try done; try by_sign.
    by apply IH.
Qed.

(** X1. Whatever the vectors and [P], a comparator that returns returns
    -1, 0 or 1. *)
Theorem comparators_three_valued (o : ordering) (M1 M2 P : list Z) (c : Z) :
  compare_by o M1 M2 P = Some c → (c = -1 ∨ c = 0 ∨ c = 1)%Z.
Proof. apply (tw_sign _ _ (compare_by_three_way o P)). Qed.

Lemma comparators_three_valued_witness :
  compare_by Grevlex [2; 8; 0]%Z [5; 1; 4]%Z [2; 1; 0]%Z = Some 1%Z
  ∧ (1 = -1 ∨ 1 = 0 ∨ 1 = 1)%Z.
Proof.
  split; [reflexivity|].
  apply (comparators_three_valued Grevlex
           [2; 8; 0]%Z [5; 1; 4]%Z [2; 1; 0]%Z 1%Z).
  reflexivity.
Defined.

Lemma compare_by_compose (o : ordering) (A B C P : list Z) (x y : Z) :
  compare_by o A B P = Some x → compare_by o B C P = Some y →
  (x ≤ 0)%Z → (y ≤ 0)%Z →
  compare_by o A C P = Some (x `min` y)%Z.
Proof.
  destruct o; simpl.
  - apply lex_compose.
  - unfold compare_by_glex. intros HAB HBC Hx Hy.
    by_cases; simplify_eq; try lia; try done; try by_sign.
    by apply (lex_compose A B C).
  - unfold compare_by_grevlex. intros HAB HBC Hx Hy.
    by_cases; simplify_eq; try lia; try done; try by_sign.
    by apply (grevlex_loop_compose A B C).
Qed.

(** X2. Each comparator orders consistently: when [compare(A,B,P) <= 0]
    and [compare(B,C,P) <= 0] then [compare(A,C,P)] returns the smaller
    of the two results, so it is [<= 0], and it is 0 only when both
    are. *)
Theorem comparators_transitive (o : ordering) (A B C P : list Z) (x y : Z) :
  compare_by o A B P = Some x → compare_by o B C P = Some y →
  (x ≤ 0)%Z → (y ≤ 0)%Z →
  compare_by o A C P = Some (x `min` y)%Z.
Proof. apply compare_by_compose. Qed.

Lemma comparators_transitive_witness :
  compare_by Glex [1; 4; 0]%Z [5; 1; 4]%Z [2; 1; 0]%Z
  = Some ((-1) `min` (-1))%Z.
Proof.
  apply (comparators_transitive Glex
           [1; 4; 0]%Z [1; 1; 3]%Z [5; 1; 4]%Z [2; 1; 0]%Z (-1)%Z (-1)%Z);
    [reflexivity | reflexivity | lia | lia].
Defined.

(** ** Which entries of [P] are read *)

Lemma lex_skip_equal (M1 M2 P1 P2 : list Z) :
  (∀ q, q ∈ P1 → ∃ v, Py.index M1 q = Some v ∧ Py.index M2 q = Some v) →
  compare_by_lex M1 M2 (P1 ++ P2) = compare_by_lex M1 M2 P2.
Proof.
  induction P1 as [|q P1 IH]; intros Hagree; simpl; [done|].
  destruct (Hagree q) as (v & -> & ->); [by left|]. simpl.
  by_cases; try lia. apply IH. intros q' Hq'. apply Hagree. by right.
Qed.

Lemma grevlex_loop_lex (M1 M2 P : list Z) :
  grevlex_loop M1 M2 P = compare_by_lex M2 M1 P.
Proof.
  induction P as [|p P IH]; simpl; [done|].
  destruct (Py.index M1 p) as [a|], (Py.index M2 p) as [b|]; simpl; try done.
  by_cases; try lia; done.
Qed.

(** X3. [compare_by_lex] is decided by the first entry of [P] at which
    the vectors differ: when they agree at every entry before [p] and
    hold [a ≠ b] at [p], the result is the sign of [a - b].  The entries
    after [p] are not read, so they may even be out of range. *)
Theorem lex_first_difference (M1 M2 P1 P2 : list Z) (p a b : Z) :
  (∀ q, q ∈ P1 → ∃ v, Py.index M1 q = Some v ∧ Py.index M2 q = Some v) →
  Py.index M1 p = Some a → Py.index M2 p = Some b → a ≠ b →
  compare_by_lex M1 M2 (P1 ++ p :: P2) = Some (Z.sgn (a - b)).
Proof.
  intros Hagree Ha Hb Hne. rewrite lex_skip_equal by done.
  simpl. rewrite Ha, Hb. simpl. by_cases; try lia; f_equal; lia.
Qed.

Lemma lex_first_difference_witness :
  compare_by_lex [1; 4; 0]%Z [2; 8; 0]%Z ([2] ++ 1 :: [7])%Z
  = Some (Z.sgn (4 - 8)).
Proof.
  apply (lex_first_difference [1; 4; 0]%Z [2; 8; 0]%Z [2]%Z [7]%Z 1%Z 4%Z 8%Z);
    [|reflexivity|reflexivity|lia].
  intros q ->%list_elem_of_singleton. exists 0%Z. split; reflexivity.
Defined.

(** X4. Between vectors of equal total degree, [compare_by_grevlex] with
    [P] is [compare_by_lex] with the arguments swapped and [P]
    reversed; the two also raise together. *)
Theorem grevlex_tie_is_swapped_lex (M1 M2 P : list Z) :
  Py.sum M1 = Py.sum M2 →
  compare_by_grevlex M1 M2 P = compare_by_lex M2 M1 (rev P).
Proof.
  intros Hdeg. unfold compare_by_grevlex. by_cases; try lia.
  apply grevlex_loop_lex.
Qed.

Lemma grevlex_tie_is_swapped_lex_witness :
  compare_by_grevlex [2; 8; 0]%Z [5; 1; 4]%Z [2; 1; 0]%Z
  = compare_by_lex [5; 1; 4]%Z [2; 8; 0]%Z (rev [2; 1; 0]%Z).
Proof.
  apply (grevlex_tie_is_swapped_lex [2; 8; 0]%Z [5; 1; 4]%Z [2; 1; 0]%Z).
  reflexivity.
Defined.

(** X5. Between vectors of equal total degree, [compare_by_grevlex] is
    decided by the last entry of [P] at which the vectors differ, and
    against the exponents: when they agree at every entry after [p] and
    hold [a ≠ b] at [p], the result is the sign of [b - a].  The entries
    before [p] are not read. *)
Theorem grevlex_last_difference (M1 M2 P1 P2 : list Z) (p a b : Z) :
  Py.sum M1 = Py.sum M2 →
  (∀ q, q ∈ P2 → ∃ v, Py.index M1 q = Some v ∧ Py.index M2 q = Some v) →
  Py.index M1 p = Some a → Py.index M2 p = Some b → a ≠ b →
  compare_by_grevlex M1 M2 (P1 ++ p :: P2) = Some (Z.sgn (b - a)).
Proof.
  intros Hdeg Hagree Ha Hb Hne. unfold compare_by_grevlex.
  by_cases; try lia.
  rewrite grevlex_loop_lex, rev_app_distr. simpl. rewrite <- app_assoc.
  rewrite lex_skip_equal.
  - simpl. rewrite Ha, Hb. simpl. by_cases; try lia; f_equal; lia.
  - intros q Hq%list_elem_of_In%in_rev%list_elem_of_In.
    destruct (Hagree q Hq) as (v & ? & ?). eauto.
Qed.

Lemma grevlex_last_difference_witness :
  compare_by_grevlex [1; 1; 3]%Z [1; 4; 0]%Z ([7; 2] ++ 1 :: [0])%Z
  = Some (Z.sgn (4 - 1)).
Proof.
  apply (grevlex_last_difference
           [1; 1; 3]%Z [1; 4; 0]%Z [7; 2]%Z [0]%Z 1%Z 1%Z 4%Z);
    [reflexivity| |reflexivity|reflexivity|lia].
  intros q ->%list_elem_of_singleton. exists 1%Z. split; reflexivity.
Defined.

Lemma lex_zero_agree (M1 M2 P : list Z) (p : Z) :
  compare_by_lex M1 M2 P = Some 0%Z → p ∈ P →
  ∃ v, Py.index M1 p = Some v ∧ Py.index M2 p = Some v.
Proof.
  induction P as [|q P IH]; simpl; intros H Hp; [by apply elem_of_nil in Hp|].
  destruct (Py.index M1 q) as [a|] eqn:Ha; [|done].
  destruct (Py.index M2 q) as [b|] eqn:Hb; [|done].
  simpl in H. by_cases; simplify_eq.
  apply elem_of_cons in Hp as [->|Hp]; [|by apply IH].
  exists a. split; [done|]. rewrite Hb. f_equal. lia.
Qed.

Lemma compare_by_zero_agree (o : ordering) (M1 M2 P : list Z) (p : Z) :
  compare_by o M1 M2 P = Some 0%Z → p ∈ P →
  ∃ v, Py.index M1 p = Some v ∧ Py.index M2 p = Some v.
Proof.
  destruct o; simpl.
  - apply lex_zero_agree.
  - unfold compare_by_glex. intros H. by_cases; simplify_eq.
    by apply lex_zero_agree.
  - unfold compare_by_grevlex. intros H Hp. by_cases; simplify_eq.
    rewrite grevlex_loop_lex in H.
    destruct (lex_zero_agree M2 M1 (rev P) p H) as (v & ? & ?); [|by eauto].
    by apply list_elem_of_In, in_rev, list_elem_of_In in Hp.
Qed.

Lemma index_nat {A} (xs : list A) (k : nat) :
  Py.index xs (Z.of_nat k) = xs !! k.
Proof.
  unfold Py.index. destruct (Z.ltb_spec (Z.of_nat k) 0); [lia|].
  by rewrite Nat2Z.id.
Qed.

(** X6. When [P] names every coordinate, a comparator returns 0 only on
    equal vectors: two vectors of one length that compare as equal under
    a [P] containing each of [0 .. N-1] are the same vector. *)
Theorem full_precedence_separates (o : ordering) (M1 M2 P : list Z) :
  length M1 = length M2 →
  (∀ k, k < length M1 → Z.of_nat k ∈ P) →
  compare_by o M1 M2 P = Some 0%Z →
  M1 = M2.
Proof.
  intros Hlen Hcover Hzero. apply list_eq. intros k.
  destruct (decide (k < length M1)) as [Hk|Hk].
  - destruct (compare_by_zero_agree o M1 M2 P (Z.of_nat k) Hzero)
      as (v & H1 & H2); [by apply Hcover|].
    rewrite !index_nat in *. congruence.
  - rewrite !lookup_ge_None_2; [done|lia..].
Qed.

Lemma full_precedence_separates_witness :
  compare_by Grevlex [1; 4; 0]%Z [1; 4; 0]%Z [2; 1; 0]%Z = Some 0%Z
  ∧ [1; 4; 0]%Z = [1; 4; 0]%Z.
Proof.
  split; [reflexivity|].
  apply (full_precedence_separates Grevlex
           [1; 4; 0]%Z [1; 4; 0]%Z [2; 1; 0]%Z); [reflexivity| |reflexivity].
  intros [|[|[|k]]] Hk; simpl in Hk;
    [apply list_elem_of_In; simpl; tauto..|lia].
Defined.

(** ** Negative entries of [P] *)

Lemma index_mod {A} (xs : list A) (N : nat) (p : Z) :
  length xs = N → (- Z.of_nat N ≤ p < Z.of_nat N)%Z →
  Py.index xs (p `mod` Z.of_nat N) = Py.index xs p.
Proof.
  intros <- Hp. destruct (Z.ltb_spec p 0).
  - assert (p `mod` Z.of_nat (length xs) = p + Z.of_nat (length xs))%Z as ->.
    { rewrite <- (Z.mod_small (p + Z.of_nat (length xs))
                   (Z.of_nat (length xs))) by lia.
      rewrite <- (Z_mod_plus_full p 1 (Z.of_nat (length xs))).
      f_equal. lia. }
    unfold Py.index.
    destruct (Z.ltb_spec (p + Z.of_nat (length xs)) 0); [lia|].
    destruct (Z.ltb_spec p 0); [|lia].
    destruct (Z.ltb_spec (p + Z.of_nat (length xs)) 0); [lia|done].
  - by rewrite Z.mod_small by lia.
Qed.

Lemma lex_mod (M1 M2 P : list Z) (N : nat) :
  length M1 = N → length M2 = N → indices_ok P M1 →
  compare_by_lex M1 M2 ((λ p, p `mod` Z.of_nat N)%Z <$> P)
  = compare_by_lex M1 M2 P.
Proof.
  intros H1 H2. induction 1 as [|p P Hp _ IH]; simpl; [done|].
  unfold in_range in Hp. rewrite H1 in Hp.
  rewrite (index_mod M1 N p), (index_mod M2 N p) by done.
  destruct (Py.index M1 p) as [a|], (Py.index M2 p) as [b|]; simpl; try done.
  by_cases; done.
Qed.

(** X7. An entry [p] of [P] with [-N <= p < 0] is not rejected: it
    stands for the coordinate [p + N].  For vectors of one length [N],
    every comparator returns with [P] what it returns with the entries
    of [P] reduced modulo [N]. *)
Theorem negative_entries_wrap (o : ordering) (M1 M2 P : list Z) (N : nat) :
  length M1 = N → length M2 = N → indices_ok P M1 →
  compare_by o M1 M2 ((λ p, p `mod` Z.of_nat N)%Z <$> P)
  = compare_by o M1 M2 P.
Proof.
  intros H1 H2 Hok. destruct o; simpl.
  - by apply lex_mod.
  - unfold compare_by_glex. by_cases; try done. by apply lex_mod.
  - unfold compare_by_grevlex. by_cases; try done.
    rewrite !grevlex_loop_lex.
    change (rev ((λ p, p `mod` Z.of_nat N)%Z <$> P))
      with (rev (map (λ p, p `mod` Z.of_nat N)%Z P)).
    rewrite <- map_rev.
    apply (lex_mod M2 M1 (rev P) N); [done..|].
    apply indices_ok_rev. unfold indices_ok, in_range in *.
    by rewrite H2, <- H1.
Qed.

Lemma negative_entries_wrap_witness :
  compare_by Lex [1; 1; 3]%Z [1; 4; 0]%Z
    ((λ p, p `mod` Z.of_nat 3)%Z <$> [-1; -2; -3]%Z)
  = compare_by Lex [1; 1; 3]%Z [1; 4; 0]%Z [-1; -2; -3]%Z.
Proof.
  apply (negative_entries_wrap Lex [1; 1; 3]%Z [1; 4; 0]%Z [-1; -2; -3]%Z 3);
    [reflexivity | reflexivity | by apply indices_ok_intro].
Defined.

(** * Further properties of the rankings *)

(** ** Loops *)

Lemma for_in_ext {I S} (idx : list I) (f g : I → S → option S) (s : S) :
  (∀ i s, f i s = g i s) → Py.for_in idx f s = Py.for_in idx g s.
Proof.
  intros Hfg. revert s. induction idx as [|i idx IH]; intros s; simpl; [done|].
  rewrite Hfg. destruct (g i s) as [s'|]; simpl; [apply IH|done].
Qed.

Lemma for_in_returned {I S} (idx : list I) (f : I → S → option S) (s s' : S)
  (i : I) :
  Py.for_in idx f s = Some s' → i ∈ idx → ∃ s1 s2, f i s1 = Some s2.
Proof.
  revert s. induction idx as [|k idx IH]; intros s; simpl; intros Hrun Hi.
  - by apply elem_of_nil in Hi.
  - destruct (f k s) as [s1|] eqn:Hk; [|done]. simpl in Hrun.
    apply elem_of_cons in Hi as [->|Hi]; eauto.
Qed.

Lemma range_elem (n i : nat) : i ∈ Py.range n ↔ i < n.
Proof.
  unfold Py.range. rewrite list_elem_of_In, in_seq. lia.
Qed.

(** [determine] calls the comparator on pairs of terms only. *)
Lemma determine_ext (cmp1 cmp2 : list Z → list Z → option Z)
  (Terms : list (list Z)) :
  (∀ a b, a ∈ Terms → b ∈ Terms → cmp1 a b = cmp2 a b) →
  determine cmp1 Terms = determine cmp2 Terms.
Proof.
  intros Hagree.
  assert (Hstep : ∀ i j Count,
    count_step cmp1 Terms i j Count = count_step cmp2 Terms i j Count).
  { intros i j Count. unfold count_step.
    destruct (Terms !! i) as [Ti|] eqn:Hi; [|done].
    destruct (Terms !! j) as [Tj|] eqn:Hj; [|done]. simpl.
    by rewrite Hagree by (by eapply list_elem_of_lookup_2). }
  assert (Hrow : ∀ n i Count,
    count_row cmp1 Terms n i Count = count_row cmp2 Terms n i Count).
  { intros n i Count. unfold count_row.
    destruct (Py.store Count i 0) as [Count0|]; [|done]. simpl.
    apply for_in_ext. intros j C. apply Hstep. }
  unfold determine, populate.
  by rewrite (for_in_ext _ _ _ _ (Hrow (length Terms))).
Qed.

(** [determine] compares every term with itself. *)
Lemma determine_compares_self (compare : list Z → list Z → option Z)
  (Terms : list (list Z)) (t : list Z) :
  is_Some (determine compare Terms) → t ∈ Terms → is_Some (compare t t).
Proof.
  intros [out Hout] (i & Hi)%list_elem_of_lookup_1.
  unfold determine in Hout.
  destruct (populate compare Terms) as [Count|] eqn:Hpop; [|done].
  unfold populate in Hpop.
  assert (i ∈ Py.range (length Terms)) as Hrange.
  { apply range_elem. by eapply lookup_lt_Some. }
  destruct (for_in_returned _ _ _ _ i Hpop Hrange) as (C1 & C2 & Hrow).
  unfold count_row in Hrow.
  destruct (Py.store C1 i 0) as [C0|]; [|done]. simpl in Hrow.
  destruct (for_in_returned _ _ _ _ i Hrow Hrange) as (C3 & C4 & Hstep).
  unfold count_step in Hstep. rewrite Hi in Hstep. simpl in Hstep.
  destruct (compare t t) as [c|]; [eauto|done].
Qed.

Lemma lex_self_reads (M P : list Z) :
  is_Some (compare_by_lex M M P) → indices_ok P M.
Proof.
  induction P as [|p P IH]; simpl; intros Hret; [by constructor|].
  destruct (Py.index M p) as [a|] eqn:Ha; [|by destruct Hret].
  simpl in Hret. constructor.
  - apply index_in_range. by rewrite Ha.
  - apply IH. by_cases; try lia. done.
Qed.

Lemma compare_by_self_reads (o : ordering) (M P : list Z) :
  is_Some (compare_by o M M P) → indices_ok P M.
Proof.
  destruct o; simpl.
  - apply lex_self_reads.
  - unfold compare_by_glex. by_cases; try lia. apply lex_self_reads.
  - unfold compare_by_grevlex. by_cases; try lia.
    rewrite grevlex_loop_lex. intros Hrev%lex_self_reads.
    apply indices_ok_rev in Hrev. by rewrite rev_involutive in Hrev.
Qed.

(** X8. [determine_by_*] returns exactly on the collections every vector
    of which can be read at every entry of [P]; otherwise it raises. In
    particular it never raises while storing into the output, and one
    unreadable entry of [P] for one term is enough to make it raise,
    because every term is compared with itself. *)
Theorem determine_returns_iff (o : ordering) (Terms : list (list Z))
  (P : list Z) :
  is_Some (determine_by o Terms P) ↔ well_formed Terms P.
Proof.
  rewrite determine_by_unfold. split.
  - intros Hret. apply Forall_forall. intros t Ht.
    apply (compare_by_self_reads o).
    by apply (determine_compares_self (λ M1 M2, compare_by o M1 M2 P) Terms).
  - intros Hwf.
    destruct (determine_slots _ _ Terms (compare_by_three_way o P) Hwf)
      as (out & -> & _). eauto.
Qed.

(** ** Collections on which two orders agree *)

(** X9. On a collection whose terms all have the same total degree,
    [determine_by_glex] returns what [determine_by_lex] returns (and
    raises when it raises). *)
Theorem glex_homogeneous_is_lex (Terms : list (list Z)) (P : list Z) (d : Z) :
  Forall (λ M, Py.sum M = d) Terms →
  determine_by_glex Terms P = determine_by_lex Terms P.
Proof.
  intros Hdeg. apply determine_ext. intros a b Ha Hb.
  rewrite Forall_forall in Hdeg.
  unfold compare_by_glex. rewrite (Hdeg a Ha), (Hdeg b Hb).
  by_cases; try lia. done.
Qed.

Lemma glex_homogeneous_is_lex_witness :
  determine_by_glex [[1; 0; 2]; [0; 3; 0]; [2; 1; 0]]%Z [0; 1; 2]%Z
  = determine_by_lex [[1; 0; 2]; [0; 3; 0]; [2; 1; 0]]%Z [0; 1; 2]%Z.
Proof.
  apply (glex_homogeneous_is_lex
           [[1; 0; 2]; [0; 3; 0]; [2; 1; 0]]%Z [0; 1; 2]%Z 3%Z).
  repeat constructor.
Defined.

Lemma two_variables_agree (M1 M2 P : list Z) :
  length M1 = 2 → length M2 = 2 → P ≡ₚ [0; 1]%Z →
  compare_by_grevlex M1 M2 P = compare_by_glex M1 M2 P.
Proof.
  intros H1 H2 HP.
  destruct M1 as [|a0 [|a1 [|]]]; try done.
  destruct M2 as [|b0 [|b1 [|]]]; try done.
  assert (P = [0; 1]%Z ∨ P = [1; 0]%Z) as [-> | ->].
  { pose proof (Permutation_length HP) as Hlen.
    destruct P as [|p [|q [|]]]; try done.
    assert (p ∈ [0; 1]%Z) as Hp by (rewrite <- HP; by left).
    assert (q ∈ [0; 1]%Z) as Hq by (rewrite <- HP; right; by left).
    assert (0%Z ∈ [p; q]) as H0 by (rewrite HP; by left).
    assert (1%Z ∈ [p; q]) as H1' by (rewrite HP; right; by left).
    rewrite !elem_of_cons in Hp, Hq, H0, H1'.
    rewrite !elem_of_nil in Hp, Hq, H0, H1'.
    destruct Hp as [->|[->|[]]], Hq as [->|[->|[]]]; auto;
      [destruct H1' as [?|[?|[]]]; done | destruct H0 as [?|[?|[]]]; done]. }
  all: unfold compare_by_grevlex, compare_by_glex;
    rewrite !sum_cons; unfold Py.sum; simpl;
    by_cases; try lia; try done.
Qed.

(** X10. Two variables: on a collection of vectors of length 2, with
    [P] a permutation of [[0, 1]], [determine_by_grevlex] returns what
    [determine_by_glex] returns. *)
Theorem grevlex_two_variables_is_glex (Terms : list (list Z)) (P : list Z) :
  Forall (λ M, length M = 2) Terms → P ≡ₚ [0; 1]%Z →
  determine_by_grevlex Terms P = determine_by_glex Terms P.
Proof.
  intros Hlen HP. apply determine_ext. intros a b Ha Hb.
  rewrite Forall_forall in Hlen. apply two_variables_agree; auto.
Qed.

Lemma grevlex_two_variables_is_glex_witness :
  determine_by_grevlex [[3; 1]; [0; 4]; [2; 2]; [1; 0]]%Z [1; 0]%Z
  = determine_by_glex [[3; 1]; [0; 4]; [2; 2]; [1; 0]]%Z [1; 0]%Z.
Proof.
  apply (grevlex_two_variables_is_glex
           [[3; 1]; [0; 4]; [2; 2]; [1; 0]]%Z [1; 0]%Z).
  - repeat constructor.
  - apply perm_swap.
Defined.

(** ** Ties *)

Lemma count_if_ext {A} (f g : A → bool) (l : list A) :
  (∀ x, x ∈ l → f x = g x) → count_if f l = count_if g l.
Proof.
  induction l as [|x l IH]; simpl; intros Hfg; [done|].
  rewrite (Hfg x) by (by left). f_equal. apply IH.
  intros y Hy. apply Hfg. by right.
Qed.

(** Terms that compare as equal compare alike with every third term. *)
Lemma tie_same_compare (o : ordering) (a b u P : list Z) :
  indices_ok P a → indices_ok P b → indices_ok P u →
  compare_by o a b P = Some 0%Z →
  compare_by o a u P = compare_by o b u P.
Proof.
  intros Ha Hb Hu Hab. pose proof (compare_by_three_way o P) as laws.
  destruct (tw_total _ _ laws b u Hb Hu) as [y Hy]. simpl in Hy.
  rewrite Hy.
  destruct (tw_sign _ _ laws b u y Hy) as [-> | [-> | ->]].
  - by rewrite (compare_by_compose o a b u P 0 (-1)).
  - by rewrite (compare_by_compose o a b u P 0 0).
  - pose proof (tw_flip _ _ laws b u) as Hub. simpl in Hub.
    rewrite Hy in Hub. simpl in Hub.
    pose proof (tw_flip _ _ laws a b) as Hba. simpl in Hba.
    rewrite Hab in Hba. simpl in Hba.
    pose proof (compare_by_compose o u b a P (-1) 0 Hub Hba) as Hua.
    rewrite (tw_flip _ _ laws u a). simpl. by rewrite Hua by lia.
Qed.

Lemma tie_same_rank (o : ordering) (Terms : list (list Z)) (a b P : list Z) :
  well_formed Terms P → a ∈ Terms → b ∈ Terms →
  compare_by o a b P = Some 0%Z →
  rank (λ M1 M2, compare_by o M1 M2 P) Terms a
  = rank (λ M1 M2, compare_by o M1 M2 P) Terms b.
Proof.
  intros Hwf Ha Hb Hab. unfold rank. apply count_if_ext. intros u Hu.
  unfold well_formed in Hwf. rewrite Forall_forall in Hwf.
  unfold is_less. by rewrite (tie_same_compare o a b u P) by auto.
Qed.

(** Two filled slots hold, the earlier one, the greater term. *)
Lemma filled_slots_ordered (o : ordering) (Terms : list (list Z))
  (P : list Z) (out : slots) (i j : nat) (a b : list Z) :
  well_formed Terms P → determine_by o Terms P = Some out →
  i < j → out !! i = Some (Some a) → out !! j = Some (Some b) →
  compare_by o a b P = Some 1%Z.
Proof.
  intros Hwf Hout Hij Ha Hb. rewrite determine_by_unfold in Hout.
  pose proof (compare_by_three_way o P) as laws.
  destruct (determine_filled _ _ Terms laws Hwf out i a Hout Ha)
    as (ia & Hia & Hra).
  destruct (determine_filled _ _ Terms laws Hwf out j b Hout Hb)
    as (jb & Hjb & Hrb).
  apply list_elem_of_lookup_2 in Hia, Hjb.
  pose proof Hwf as Hok. unfold well_formed in Hok.
  rewrite Forall_forall in Hok.
  destruct (tw_total _ _ laws a b (Hok a Hia) (Hok b Hjb)) as [c Hc].
  simpl in Hc. rewrite Hc.
  destruct (tw_sign _ _ laws a b c Hc) as [-> | [-> | ->]]; [| |done].
  - pose proof (less_rank _ _ Terms laws a b Hjb (Hok b Hjb) Hc). lia.
  - pose proof (tie_same_rank o Terms a b P Hwf Hia Hjb Hc). lia.
Qed.

(** X11. Ties or not, what [determine_by_*] returns is strictly
    descending on its filled slots: of two terms found in the output,
    the one at the earlier position compares as +1 with the other. *)
Theorem output_descends_on_filled_slots (o : ordering)
  (Terms : list (list Z)) (P : list Z) (out : slots) (i j : nat)
  (a b : list Z) :
  well_formed Terms P → determine_by o Terms P = Some out →
  i < j → out !! i = Some (Some a) → out !! j = Some (Some b) →
  compare_by o a b P = Some 1%Z.
Proof. apply filled_slots_ordered. Qed.

Lemma output_descends_on_filled_slots_witness :
  determine_by Lex [[0; 1]; [1; 0]; [0; 1]; [1; 1]]%Z [0]%Z
  = Some [Some [1; 1]; None; Some [0; 1]; None]%Z
  ∧ compare_by Lex [1; 1]%Z [0; 1]%Z [0]%Z = Some 1%Z.
Proof.
  split; [reflexivity|].
  apply (output_descends_on_filled_slots Lex
           [[0; 1]; [1; 0]; [0; 1]; [1; 1]]%Z [0]%Z
           [Some [1; 1]; None; Some [0; 1]; None]%Z 0 2 [1; 1]%Z [0; 1]%Z);
    [by apply well_formed_intro | reflexivity | lia | reflexivity
    | reflexivity].
Defined.

(** X12. The graded orders list by total degree: in what
    [determine_by_glex] and [determine_by_grevlex] return, a term at an
    earlier position has a total degree at least that of a term at a
    later position. *)
Theorem graded_output_degrees (o : ordering) (Terms : list (list Z))
  (P : list Z) (out : slots) (i j : nat) (a b : list Z) :
  o ≠ Lex →
  well_formed Terms P → determine_by o Terms P = Some out →
  i < j → out !! i = Some (Some a) → out !! j = Some (Some b) →
  (Py.sum b ≤ Py.sum a)%Z.
Proof.
  intros Ho Hwf Hout Hij Ha Hb.
  pose proof (filled_slots_ordered o Terms P out i j a b Hwf Hout Hij Ha Hb)
    as Hc.
  destruct o; [done| |]; simpl in Hc;
    [unfold compare_by_glex in Hc | unfold compare_by_grevlex in Hc];
    by_cases; simplify_eq; lia.
Qed.

Lemma graded_output_degrees_witness :
  (Py.sum [1; 1; 3] ≤ Py.sum [2; 8; 0])%Z.
Proof.
  apply (graded_output_degrees Grevlex Terms_223b Procedure_223b
           [Some [2; 8; 0]; Some [5; 1; 4]; Some [1; 1; 3]; Some [1; 4; 0]]%Z
           0 2 [2; 8; 0]%Z [1; 1; 3]%Z);
    [done | by apply well_formed_intro | reflexivity | lia | reflexivity
    | reflexivity].
Defined.

(** Among [n] naturals with a repetition some value below [n] is
    missing. *)
Lemma missing_value (R : list nat) (i j r : nat) :
  i ≠ j → R !! i = Some r → R !! j = Some r →
  ∃ p, p < length R ∧ p ∉ R.
Proof.
  intros Hne Hi Hj.
  destruct (decide (Forall (λ p, p ∈ R) (seq 0 (length R)))) as [Hall|Hnot].
  - exfalso. rewrite Forall_forall in Hall.
    assert (seq 0 (length R) ⊆+ R) as Hsub
      by (apply NoDup_submseteq; [apply NoDup_seq | done]).
    apply submseteq_length_Permutation in Hsub; [|by rewrite length_seq].
    assert (NoDup R) as Hnd by (rewrite <- Hsub; apply NoDup_seq).
    by pose proof (NoDup_lookup R i j r Hnd Hi Hj).
  - apply not_Forall_Exists in Hnot; [|apply _].
    apply Exists_exists in Hnot as (p & Hp & Hnp).
    exists p. split; [|done].
    apply list_elem_of_In, in_seq in Hp. lia.
Qed.

(** X13. A tie costs a slot: when two terms at different positions of a
    well-formed collection compare as equal, what [determine_by_*]
    returns has an unfilled slot. *)
Theorem tie_leaves_unfilled_slot (o : ordering) (Terms : list (list Z))
  (P : list Z) (i j : nat) (a b : list Z) :
  well_formed Terms P →
  i ≠ j → Terms !! i = Some a → Terms !! j = Some b →
  compare_by o a b P = Some 0%Z →
  ∃ out p, determine_by o Terms P = Some out ∧ out !! p = Some None.
Proof.
  intros Hwf Hne Ha Hb Hab. rewrite determine_by_unfold.
  pose proof (compare_by_three_way o P) as laws.
  destruct (determine_slots _ _ Terms laws Hwf) as (out & Hout & Hlen & Hslots).
  set (rk := rank (λ M1 M2, compare_by o M1 M2 P) Terms) in *.
  destruct (missing_value (rk <$> Terms) i j (rk a)) as (p & Hp & Hmiss).
  - done.
  - by rewrite list_lookup_fmap, Ha.
  - rewrite list_lookup_fmap, Hb. simpl. f_equal. symmetry.
    apply tie_same_rank; [done|by eapply list_elem_of_lookup_2..|done].
  - rewrite length_fmap in Hp. exists out, p. split; [done|].
    destruct (Hslots p) as [[-> _]|(i0 & T0 & HT0 & Hr0 & _)].
    + by apply lookup_replicate_2.
    + destruct Hmiss. rewrite <- Hr0.
      apply list_elem_of_fmap. exists T0. split; [done|].
      by eapply list_elem_of_lookup_2.
Qed.

Lemma tie_leaves_unfilled_slot_witness :
  ∃ out p, determine_by Lex [[0; 1]; [1; 0]; [0; 2]]%Z [0]%Z = Some out
         ∧ out !! p = Some None.
Proof.
  apply (tie_leaves_unfilled_slot Lex [[0; 1]; [1; 0]; [0; 2]]%Z [0]%Z
           0 2 [0; 1]%Z [0; 2]%Z);
    [by apply well_formed_intro | lia | reflexivity | reflexivity
    | reflexivity].
Defined.

(** ** The order of the input *)

Lemma count_if_Permutation {A} (f : A → bool) (l l' : list A) :
  l ≡ₚ l' → count_if f l = count_if f l'.
Proof.
  induction 1 as [|x l l' _ IH|x y l|l l' l'' _ IH1 _ IH2]; simpl.
  - done.
  - by rewrite IH.
  - lia.
  - by rewrite IH1.
Qed.

Lemma pairwise_distinct_Permutation
  (compare : list Z → list Z → option Z) (Terms Terms' : list (list Z)) :
  Terms ≡ₚ Terms' → pairwise_distinct compare Terms →
  pairwise_distinct compare Terms'.
Proof.
  intros HP Hd i j a b Hne Ha Hb.
  symmetry in HP. apply Permutation_inj in HP as [_ (f & Hinj & Hf)].
  rewrite Hf in Ha, Hb. apply (Hd (f i) (f j)); [|done..].
  intros Heq. by apply Hinj in Heq.
Qed.

Section InputOrder.

Variable compare : list Z → list Z → option Z.
Variable ok : list Z → Prop.
Hypothesis laws : three_way ok compare.

(** Without ties the output depends on the terms, not on the order
    they come in. *)
Lemma determine_Permutation (Terms Terms' : list (list Z)) :
  Forall ok Terms → pairwise_distinct compare Terms → Terms ≡ₚ Terms' →
  determine compare Terms' = determine compare Terms.
Proof.
  intros Hok Hd HP.
  assert (Forall ok Terms') as Hok'.
  { rewrite Forall_forall in Hok. apply Forall_forall. intros t Ht.
    apply Hok. by rewrite HP. }
  pose proof (pairwise_distinct_Permutation _ _ _ HP Hd) as Hd'.
  destruct (determine_sorted compare ok Terms laws Hok Hd)
    as (out & Hout & Hperm & _).
  destruct (determine_sorted compare ok Terms' laws Hok' Hd')
    as (out' & Hout' & Hperm' & _).
  rewrite Hout, Hout'. do 2 f_equal. apply list_eq. intros p.
  destruct (out !! p) as [a|] eqn:Ha.
  - destruct (determine_filled compare ok Terms laws Hok _ p a Hout)
      as (i & Hi & Hrk); [by rewrite list_lookup_fmap, Ha|].
    assert (a ∈ Terms') as (i' & Hi')%list_elem_of_lookup_1
      by (rewrite <- HP; by eapply list_elem_of_lookup_2).
    pose proof (determine_places compare ok Terms' laws Hok' _ i' a Hout' Hi')
      as Hplace.
    assert (rank compare Terms' a = p) as Hrk'.
    { rewrite <- Hrk. symmetry. by apply count_if_Permutation. }
    rewrite Hrk' in Hplace.
    rewrite list_lookup_fmap in Hplace.
    destruct (out' !! p) as [a'|]; simpl in Hplace.
    + assert (Some (Some a') = Some (Some a)) as [= ->]; [|done].
      apply Hplace. intros j b Hlt Hb Heq.
      assert (j = i'); [|lia].
      apply (rank_inj compare ok Terms' laws Hok' Hd' j i' b a); [done..|].
      by rewrite Hrk'.
    + assert (@None (option (list Z)) = Some (Some a)); [|done].
      apply Hplace. intros j b Hlt Hb Heq.
      assert (j = i'); [|lia].
      apply (rank_inj compare ok Terms' laws Hok' Hd' j i' b a); [done..|].
      by rewrite Hrk'.
  - apply lookup_ge_None. apply lookup_ge_None in Ha.
    apply Permutation_length in Hperm, Hperm', HP. lia.
Qed.

End InputOrder.

(** X14. Without ties the order of the input does not matter: for a
    well-formed collection of pairwise distinct terms, [determine_by_*]
    returns the same sequence on every rearrangement of the
    collection. *)
Theorem determine_ignores_input_order (o : ordering)
  (Terms Terms' : list (list Z)) (P : list Z) :
  well_formed Terms P →
  pairwise_distinct (λ M1 M2, compare_by o M1 M2 P) Terms →
  Terms ≡ₚ Terms' →
  determine_by o Terms' P = determine_by o Terms P.
Proof.
  intros Hwf Hd HP. rewrite !determine_by_unfold.
  by apply (determine_Permutation _ (indices_ok P));
    [apply compare_by_three_way|..].
Qed.

Lemma determine_ignores_input_order_witness :
  determine_by Glex (rev Terms_223b) Procedure_223b
  = determine_by Glex Terms_223b Procedure_223b.
Proof.
  apply (determine_ignores_input_order Glex
           Terms_223b (rev Terms_223b) Procedure_223b).
  - by apply well_formed_intro.
  - by apply pairwise_distinct_intro.
  - apply Permutation_rev.
Defined.

(** X15. Ranking twice changes nothing: when [determine_by_*] returns a
    full sequence [out] on a well-formed collection of pairwise distinct
    terms, it returns [out] again on [out]. *)
Theorem determine_idempotent (o : ordering) (Terms out : list (list Z))
  (P : list Z) :
  well_formed Terms P →
  pairwise_distinct (λ M1 M2, compare_by o M1 M2 P) Terms →
  determine_by o Terms P = Some (Some <$> out) →
  determine_by o out P = Some (Some <$> out).
Proof.
  intros Hwf Hd Hout. rewrite determine_by_unfold in *.
  pose proof (compare_by_three_way o P) as laws.
  destruct (determine_sorted _ _ Terms laws Hwf Hd) as (out0 & Hout0 & HP & _).
  rewrite Hout in Hout0. injection Hout0 as Heq.
  apply (inj (fmap Some)) in Heq. subst out0.
  rewrite <- Hout. symmetry in HP.
  by apply (determine_Permutation _ (indices_ok P)).
Qed.

Lemma determine_idempotent_witness :
  determine_by Lex [[5; 1; 4]; [1; 1; 3]; [2; 8; 0]; [1; 4; 0]]%Z
    Procedure_223b
  = Some (Some <$> [[5; 1; 4]; [1; 1; 3]; [2; 8; 0]; [1; 4; 0]]%Z).
Proof.
  apply (determine_idempotent Lex Terms_223b
           [[5; 1; 4]; [1; 1; 3]; [2; 8; 0]; [1; 4; 0]]%Z Procedure_223b).
  - by apply well_formed_intro.
  - by apply pairwise_distinct_intro.
  - reflexivity.
Defined.

(** X16. Without ties the counting array is a permutation of
    [0 .. n-1]: on a well-formed collection of [n] pairwise distinct
    terms the first loop nest leaves each of the positions [0 .. n-1] in
    [Count] exactly once. *)
Theorem populate_permutes_range (o : ordering) (Terms : list (list Z))
  (P : list Z) :
  well_formed Terms P →
  pairwise_distinct (λ M1 M2, compare_by o M1 M2 P) Terms →
  ∃ Count, populate (λ M1 M2, compare_by o M1 M2 P) Terms = Some Count
         ∧ Count ≡ₚ Py.range (length Terms).
Proof.
  intros Hwf Hd. pose proof (compare_by_three_way o P) as laws.
  set (cmp := λ M1 M2, compare_by o M1 M2 P) in *.
  exists (rank cmp Terms <$> Terms). split.
  - apply populate_spec. by apply (compare_returns _ (indices_ok P)).
  - apply submseteq_length_Permutation.
    + apply NoDup_submseteq.
      * apply NoDup_alt. intros i j r.
        rewrite !list_lookup_fmap.
        destruct (Terms !! i) as [a|] eqn:Ha; [|done].
        destruct (Terms !! j) as [b|] eqn:Hb; [|done].
        simpl. intros [= <-] [= Heq].
        by apply (rank_inj cmp (indices_ok P) Terms laws Hwf Hd i j a b).
      * intros r (t & -> & Ht)%list_elem_of_fmap.
        apply range_elem. by apply (rank_lt cmp (indices_ok P)).
    + unfold Py.range. by rewrite length_seq, length_fmap.
Qed.

Lemma populate_permutes_range_witness :
  ∃ Count,
    populate (λ M1 M2, compare_by Grevlex M1 M2 Procedure_223b) Terms_223b
    = Some Count
    ∧ Count ≡ₚ Py.range (length Terms_223b).
Proof.
  apply (populate_permutes_range Grevlex Terms_223b Procedure_223b).
  - by apply well_formed_intro.
  - by apply pairwise_distinct_intro.
Defined.

(** * What the comparators read, and when they raise *)

(** X17. Swapping the arguments negates the result on every input, and
    does not change whether the comparator raises. *)
Theorem comparators_swap (o : ordering) (A B P : list Z) :
  compare_by o B A P = Z.opp <$> compare_by o A B P.
Proof. apply (tw_flip _ _ (compare_by_three_way o P)). Qed.

(** X18. [compare_by_lex] reads the vectors at the entries of [P] and
    nowhere else: replacing the vectors by others that hold the same
    exponents at those entries does not change what it returns. *)
Theorem lex_reads_only_P (M1 M2 M1' M2' P : list Z) :
  (∀ p, p ∈ P → Py.index M1 p = Py.index M1' p) →
  (∀ p, p ∈ P → Py.index M2 p = Py.index M2' p) →
  compare_by_lex M1 M2 P = compare_by_lex M1' M2' P.
Proof.
  induction P as [|q P IH]; simpl; intros H1 H2; [done|].
  rewrite (H1 q), (H2 q) by (by left).
  destruct (Py.index M1' q) as [a|]; [|done].
  destruct (Py.index M2' q) as [b|]; [|done]. simpl.
  by_cases; try done.
  apply IH; intros p Hp; [apply H1 | apply H2]; by right.
Qed.

Lemma lex_reads_only_P_witness :
  compare_by_lex [1; 4; 0]%Z [1; 1; 3]%Z [2; 0]%Z
  = compare_by_lex [1; 9; 0]%Z [1; 0; 3]%Z [2; 0]%Z.
Proof.
  apply (lex_reads_only_P [1; 4; 0]%Z [1; 1; 3]%Z [1; 9; 0]%Z [1; 0; 3]%Z
           [2; 0]%Z);
    intros p Hp; apply list_elem_of_In in Hp; simpl in Hp;
    destruct Hp as [<-|[<-|[]]]; reflexivity.
Defined.
